(** * Presentation protocol core of mina-attestations

    A shallow embedding of the presentation module (request contexts,
    [Presentation.compile], [createPresentation], [pickCredentials]) and of
    [src/credential-recursive.ts] (recursive credentials: [verify],
    [verifyOutsideCircuit], [issuer], the memoised [compile]).

    Conventions.
    - An o1js [Field] is an integer modulo the Pallas base-field order.
    - A thrown JavaScript exception is the [Err] case of [result]; the
      exception's message is kept as a string.
    - A JS object used as a dictionary is a [gmap string _], its keys being
      ordinary property names (the name [__proto__], which addresses the
      prototype, is not one); a JS array is a [list]; where the code
      mutates an array in place and a caller could see it, the array lives
      in a store and is addressed through a location.
    - [Object.entries] of an object is the list of its properties in
      enumeration order; the names in it are pairwise distinct.
    - The proving backend (o1js), the hash permutation and the modules of the
      repository that are not part of the verified sources are section
      variables.

    The definitions come first, the properties after them. *)

From Stdlib Require Import ZArith String.
From stdpp Require Import base option list strings gmap fin_maps.

Local Open Scope string_scope.
Local Open Scope list_scope.

(** ** Field elements *)

Definition Field_ORDER : Z :=
  28948022309329048855892746252171976963363056481941560715954676764349967630337%Z.

Definition Field : Type := Z.

(** [Field(x)]: the constructor reduces its argument modulo the field order. *)
Definition Field_from (x : Z) : Field := (x mod Field_ORDER)%Z.

(** ** Exceptions *)

Inductive Error : Type :=
  | AssertionError (message : string)   (* [assert(cond, message)], [x.assertEquals(y, message)] *)
  | ProofRejected                        (* an in-circuit [proof.verify(vk)] that cannot be satisfied *)
  | TypeError (message : string)         (* destructuring or iterating [undefined] *)
  | BackendError (message : string).     (* anything thrown by the proving backend *)

Inductive result (A : Type) : Type :=
  | Ok (a : A)
  | Err (e : Error).
Arguments Ok {A} a.
Arguments Err {A} e.

Definition is_Ok {A} (r : result A) : bool :=
  match r with Ok _ => true | Err _ => false end.

Definition result_bind {A B} (r : result A) (k : A → result B) : result B :=
  match r with
  | Ok a => k a
  | Err e => Err e
  end.

Notation "'try' x <- r ; k" := (result_bind r (fun x => k))
  (at level 10, x name, r at level 100, k at level 200).
Notation "'try_' r ; k" := (result_bind r (fun _ => k))
  (at level 10, r at level 100, k at level 200).

(** Modelled from the spec: [assert] of [src/util.ts], which is not among the
    verified sources.  It throws an error carrying [message] when the
    condition is false and does nothing otherwise. *)
Definition assert (cond : bool) (message : string) : result unit :=
  if cond then Ok tt else Err (AssertionError message).

(** [x.assertEquals(y, message)] on field elements. *)
Definition Field_assertEquals (x y : Field) (message : string) : result unit :=
  if bool_decide (x = y) then Ok tt else Err (AssertionError message).

(** ** JavaScript array primitives used by the selector *)

Section Arrays.
Context {A : Type}.

(** [arr.findIndex(p)]: index of the first element satisfying [p];
    [None] stands for the result [-1]. *)
Fixpoint findIndex (p : A → bool) (arr : list A) : option nat :=
  match arr with
  | [] => None
  | x :: rest => if p x then Some 0 else S <$> findIndex p rest
  end.

(** [arr.splice(i, 1)]: the array after removing the element at index [i]
    (the array is unchanged when [i] is past the end). *)
Definition splice1 (i : nat) (arr : list A) : list A := delete i arr.

(** [arr.shift()]: the removed first element and the remaining array. *)
Definition shift (arr : list A) : option A * list A :=
  match arr with
  | [] => (None, [])
  | x :: rest => (Some x, rest)
  end.

(** [arr.push(x)] *)
Definition push (arr : list A) (x : A) : list A := arr ++ [x].
End Arrays.

(** [arr.join(', ')] on an array of strings. *)
Definition join (sep : string) (arr : list string) : string := String.concat sep arr.

(** ** Credential selection: [pickCredentials] *)

Module Selector.
Section Selector.
(** [StoredCredential] is declared in [src/credential.ts]; the selector
    never looks inside one. *)
Context {StoredCredential : Type}.

(** [StoredCredential & { key?: string }] *)
Record Tagged : Type := mkTagged {
  key : option string;
  stored : StoredCredential;
}.

(** The predicate of [credentials.findIndex((c) => c.key === key)].  An
    absent tag is [undefined], which is never [===] to a string. *)
Definition hasKey (k : string) (c : Tagged) : bool :=
  bool_decide (key c = Some k).

(** The three local variables of [pickCredentials]. *)
Record PickState : Type := mkPick {
  credentialsUsed : gmap string Tagged;
  credentialsStillNeeded : list string;
  credentials : list Tagged;
}.

(** One iteration of [for (let key of credentialsNeeded)]. *)
Definition tagStep (st : PickState) (k : string) : PickState :=
  match findIndex (hasKey k) (credentials st) with
  | None =>
      mkPick (credentialsUsed st) (push (credentialsStillNeeded st) k) (credentials st)
  | Some i =>
      match credentials st !! i with
      | Some c =>
          mkPick (<[k := c]> (credentialsUsed st)) (credentialsStillNeeded st)
                 (splice1 i (credentials st))
      | None => (* [findIndex] never answers an index past the end *)
          mkPick (credentialsUsed st) (credentialsStillNeeded st)
                 (splice1 i (credentials st))
      end
  end.

(** The first loop. *)
Fixpoint tagPass (credentialsNeeded : list string) (st : PickState) : PickState :=
  match credentialsNeeded with
  | [] => st
  | k :: rest => tagPass rest (tagStep st k)
  end.

(** The second loop, [for (let credential of credentials)]; the array it
    iterates over is not modified by its body.  It leaves through [break]
    as soon as no key is still needed. *)
Fixpoint orderPass (remaining : list Tagged) (used : gmap string Tagged)
    (stillNeeded : list string) : gmap string Tagged * list string :=
  match remaining with
  | [] => (used, stillNeeded)
  | credential :: rest =>
      match shift stillNeeded with
      | (None, _) => (used, stillNeeded)
      | (Some k, stillNeeded') => orderPass rest (<[k := credential]> used) stillNeeded'
      end
  end.

(** Both loops, up to the final [assert]. *)
Definition pickLoops (credentialsNeeded : list string) (pool : list Tagged)
    : gmap string Tagged * list string :=
  let st := tagPass credentialsNeeded (mkPick ∅ [] pool) in
  orderPass (credentials st) (credentialsUsed st) (credentialsStillNeeded st).

Definition missingMessage (stillNeeded : list string) : string :=
  String.append "Missing credentials: " (join ", " stillNeeded).

Definition pickCredentials (credentialsNeeded : list string) (pool : list Tagged)
    : result (gmap string Tagged) :=
  let '(used, stillNeeded) := pickLoops credentialsNeeded pool in
  try_ assert (Nat.eqb (length stillNeeded) 0) (missingMessage stillNeeded);
  Ok used.

(** The guarantee as the spec words it: a credential that carries a tag is
    bound to no key other than its tag. *)
Definition tagsRespected (used : gmap string Tagged) : Prop :=
  ∀ k c t, used !! k = Some c → key c = Some t → t = k.

(** The two passes as the spec words them, told from the pool and the needed
    keys alone.  [serve k keys] strikes one occurrence of [k] from [keys]. *)
Fixpoint serve (k : string) (keys : list string) : list string :=
  match keys with
  | [] => []
  | k' :: rest => if decide (k' = k) then rest else k' :: serve k rest
  end.

(** The pool after the pass by tag: walking the pool in its order, a
    credential is taken when its tag is a needed key that has not been
    served yet; every other credential stays, in pool order. *)
Fixpoint leftByTag (needed : list string) (pool : list Tagged) : list Tagged :=
  match pool with
  | [] => []
  | c :: rest =>
      match key c with
      | Some k =>
          if decide (k ∈ needed) then leftByTag (serve k needed) rest
          else c :: leftByTag needed rest
      | None => c :: leftByTag needed rest
      end
  end.

(** The keys the pass by tag leaves unbound: walking the needed keys in
    their order, a key is served when a tag equal to it is still
    available; [tags] lists the tags of the pool. *)
Fixpoint unservedByTag (needed : list string) (tags : list string) : list string :=
  match needed with
  | [] => []
  | k :: rest =>
      if decide (k ∈ tags) then unservedByTag rest (serve k tags)
      else k :: unservedByTag rest tags
  end.

(** *** The selector over the store

    The caller's array is an object that both caller and callee can reach,
    so the second parameter is a location.  The parameter pattern
    [[...credentials]] allocates a new array holding the same elements and
    binds the local variable to it; every [splice] of the first loop writes
    to that new array. *)

Definition loc : Type := positive.

Abbreviation Store := (gmap loc (list Tagged)).

(** [[...credentials]]: a fresh location initialised with a copy. *)
Definition spread (arg : loc) (σ : Store) : result loc * Store :=
  match σ !! arg with
  | None => (Err (TypeError "credentials is not iterable"), σ)
  | Some pool =>
      let copy := fresh (dom σ) in
      (Ok copy, <[copy := pool]> σ)
  end.

(** One iteration of the first loop, reading and writing the array at
    [local]; [acc] holds [credentialsUsed] and [credentialsStillNeeded]. *)
Definition tagStepS (local : loc) (acc : gmap string Tagged * list string)
    (k : string) (σ : Store) : (gmap string Tagged * list string) * Store :=
  let arr := σ !!! local in
  match findIndex (hasKey k) arr with
  | None => ((acc.1, push acc.2 k), σ)
  | Some i =>
      (match arr !! i with
       | Some c => (<[k := c]> acc.1, acc.2)
       | None => acc
       end,
       <[local := splice1 i arr]> σ)
  end.

Fixpoint tagPassS (local : loc) (credentialsNeeded : list string)
    (acc : gmap string Tagged * list string) (σ : Store)
    : (gmap string Tagged * list string) * Store :=
  match credentialsNeeded with
  | [] => (acc, σ)
  | k :: rest =>
      let '(acc', σ') := tagStepS local acc k σ in
      tagPassS local rest acc' σ'
  end.

Definition pickCredentialsS (credentialsNeeded : list string) (arg : loc) (σ : Store)
    : result (gmap string Tagged) * Store :=
  match spread arg σ with
  | (Err e, σ0) => (Err e, σ0)
  | (Ok local, σ0) =>
      let '(acc, σ1) := tagPassS local credentialsNeeded (∅, []) σ0 in
      let '(used, stillNeeded) := orderPass (σ1 !!! local) acc.1 acc.2 in
      (try_ assert (Nat.eqb (length stillNeeded) 0) (missingMessage stillNeeded);
       Ok used,
       σ1)
  end.

End Selector.
Arguments Tagged : clear implicits.
Arguments PickState : clear implicits.
End Selector.


(** ** Presentation requests and their context: [PresentationRequest] *)

Module Request.

(** [ContextConfig.type] *)
Inductive ContextType : Type := zk_app | https.

Section Request.
Context {Spec Claims PublicKey Program : Type}.

(** [Poseidon.hash] and [Poseidon.hashWithPrefix] of o1js. *)
Variable Poseidon_hash : list Field → Field.
Variable Poseidon_hashWithPrefix : string → list Field → Field.

(** [Struct(NestedProvable.fromValue(claims)).toFields(claims)], the field
    encoding of the claims ([src/nested.ts] and o1js). *)
Variable claims_toFields : Claims → list Field.

(** Field encodings of the values that are not field elements already, and
    the domain-separation prefix of contexts ([src/constants.ts]). *)
Variable ContextType_toFields : ContextType → list Field.
Variable string_toFields : string → list Field.
Variable PublicKey_toFields : PublicKey → list Field.
Variable prefixes_context : string.

Record InputContext : Type := mkInputContext {
  action : string + Field;
  serverNonce : Field;
}.

Record WalletContext : Type := mkWalletContext {
  verifierIdentity : string + PublicKey;
  clientNonce : Field;
}.

Record ContextConfig : Type := mkContextConfig {
  type : ContextType;
  presentationCircuitVKHash : Field;
}.

(** The object literal [contextParams] of [withContext], cast to
    [ContextInput]. *)
Record ContextInput : Type := mkContextInput {
  ci_type : ContextType;
  ci_presentationCircuitVKHash : Field;
  ci_clientNonce : Field;
  ci_serverNonce : Field;
  ci_verifierIdentity : string + PublicKey;
  ci_action : string + Field;
  ci_claims : Field;
}.

(** What [computeContext] hands to [generateContext]: every component as
    field elements. *)
Record ContextOutput : Type := mkContextOutput {
  co_type : list Field;
  co_presentationCircuitVKHash : Field;
  co_clientNonce : Field;
  co_serverNonce : Field;
  co_verifierIdentity : list Field;
  co_action : list Field;
  co_claims : Field;
}.

Definition verifierIdentity_toFields (v : string + PublicKey) : list Field :=
  match v with
  | inl s => string_toFields s
  | inr pk => PublicKey_toFields pk
  end.

Definition action_toFields (a : string + Field) : list Field :=
  match a with
  | inl s => string_toFields s
  | inr f => [f]
  end.

(** Modelled from the spec: [computeContext] of [src/program-spec.ts], which
    is not among the verified sources.  The spec has both sides feed
    identical inputs to the hash; the model keeps the seven components in
    the spec's order and turns each into its field encoding. *)
Definition computeContext (input : ContextInput) : ContextOutput :=
  {| co_type := ContextType_toFields (ci_type input);
     co_presentationCircuitVKHash := ci_presentationCircuitVKHash input;
     co_clientNonce := ci_clientNonce input;
     co_serverNonce := ci_serverNonce input;
     co_verifierIdentity := verifierIdentity_toFields (ci_verifierIdentity input);
     co_action := action_toFields (ci_action input);
     co_claims := ci_claims input |}.

(** Modelled from the spec: [generateContext] of [src/program-spec.ts], which
    is not among the verified sources.  The spec gives the context as the
    domain-separated hash of [(typeTag, verificationKeyHash, clientNonce,
    serverNonce, verifierIdentity, action, hash(claims))]. *)
Definition generateContext (c : ContextOutput) : Field :=
  Poseidon_hashWithPrefix prefixes_context
    (co_type c
       ++ [co_presentationCircuitVKHash c; co_clientNonce c; co_serverNonce c]
       ++ co_verifierIdentity c
       ++ co_action c
       ++ [co_claims c]).

(** [PresentationRequest], with the [program] property that
    [Presentation.compile] adds to its copy of the request.  A closure that
    destructures its argument throws when the argument is [undefined]. *)
Record PresentationRequest : Type := mkRequest {
  programSpec : Spec;
  claims : Claims;
  inputContext : option InputContext;
  deriveContext : option WalletContext → result Field;
  program : option Program;
}.

Definition noContext (programSpec : Spec) (claims : Claims) : PresentationRequest :=
  {| programSpec := programSpec;
     claims := claims;
     inputContext := None;
     deriveContext := λ _, Ok (Field_from 0);
     program := None |}.

Definition withContext (programSpec : Spec) (claims : Claims)
    (contextConfig : ContextConfig) (inputContext : InputContext)
    : PresentationRequest :=
  let type := type contextConfig in
  let presentationCircuitVKHash := presentationCircuitVKHash contextConfig in
  let action := action inputContext in
  let serverNonce := serverNonce inputContext in
  let claimsFields := claims_toFields claims in
  let claimsHash := Poseidon_hash claimsFields in
  {| programSpec := programSpec;
     claims := claims;
     inputContext := None;
     deriveContext := λ walletContext,
       match walletContext with
       | None => Err (TypeError "Cannot destructure 'walletContext' as it is undefined")
       | Some walletContext =>
           let verifierIdentity := verifierIdentity walletContext in
           let clientNonce := clientNonce walletContext in
           let contextParams :=
             {| ci_type := type;
                ci_presentationCircuitVKHash := presentationCircuitVKHash;
                ci_clientNonce := clientNonce;
                ci_serverNonce := serverNonce;
                ci_verifierIdentity := verifierIdentity;
                ci_action := action;
                ci_claims := claimsHash |} in
           let computedContext := computeContext contextParams in
           let generatedContext := generateContext computedContext in
           Ok generatedContext
       end;
     program := None |}.

End Request.
Arguments PresentationRequest : clear implicits.
Arguments WalletContext : clear implicits.
End Request.

(** ** Recursive credentials: [src/credential-recursive.ts] *)

Module Recursive.
Section Recursive.
Context {PublicInput Data DataType PublicKey ProofBytes Cache Backend : Type}.

(** [Credential<Data>], the public output of the inner program. *)
Record Credential : Type := mkCredential {
  owner : PublicKey;
  data : Data;
}.

Record VerificationKey : Type := mkVK {
  vk_data : string;
  hash : Field;
}.

(** The static side of a [DynamicProof] subclass: how its public input is
    laid out as field elements. *)
Record ProofClass : Type := mkProofClass {
  className : string;
  publicInputType_toFields : PublicInput → list Field;
}.

(** An instance of [DynamicProof<Input, Credential<Data>>]. *)
Record DynamicProof : Type := mkProof {
  constructor : ProofClass;
  publicInput : PublicInput;
  publicOutput : Credential;
  proofBytes : ProofBytes;
}.

Record Witness : Type := mkWitness {
  type : string;
  vk : VerificationKey;
  proof : DynamicProof;
}.

(** The second argument of [verify]; only its [hash] property is read. *)
Record CredentialHash : Type := mkCredentialHash {
  ch_hash : Field;
}.

(** The two entry points of the proving backend.  [verifyProof proof vk]
    says whether the constraint that [proof.verify(vk)] adds to a circuit
    can be satisfied; [verifyResult proof vk] is the boolean that
    [await verify(proof, vk)] resolves to outside a circuit. *)
Variable verifyProof : DynamicProof → VerificationKey → bool.
Variable verifyResult : DynamicProof → VerificationKey → bool.

Variable Poseidon_hash : list Field → Field.
Variable Poseidon_hashWithPrefix : string → list Field → Field.

(** [hashCredentialInCircuit] and [credentialHash] of [src/credential.ts], and
    [prefixes.issuerRecursive] of [src/constants.ts]. *)
Variable hashCredentialInCircuit : DataType → Credential → CredentialHash.
Variable credentialHash : Credential → Field.
Variable prefixes_issuerRecursive : string.

(** [proof.verify(vk)] inside a circuit: a constraint, which no prover can
    satisfy unless the proof is valid for [vk]. *)
Definition DynamicProof_verify (proof : DynamicProof) (vk : VerificationKey)
    : result unit :=
  if verifyProof proof vk then Ok tt else Err ProofRejected.

(** [await verify(proof, vk)] of o1js, outside a circuit. *)
Definition o1js_verify (proof : DynamicProof) (vk : VerificationKey) : result bool :=
  Ok (verifyResult proof vk).

(** The part of a [CredentialSpec] this development is about. *)
Record CredentialSpec : Type := mkCredentialSpec {
  credentialType : string;
  verify : Witness → CredentialHash → result unit;
  verifyOutsideCircuit : Witness → CredentialHash → result unit;
  issuer : Witness → Field;
}.

(** [Recursive(Proof, dataType)] *)
Definition Recursive (Proof : ProofClass) (dataType : DataType) : CredentialSpec :=
  let data := dataType in
  {| credentialType := "recursive";
     verify := λ w credHash,
       let vk := vk w in
       let proof := proof w in
       try_ DynamicProof_verify proof vk;
       Field_assertEquals
         (ch_hash (hashCredentialInCircuit data (publicOutput proof)))
         (ch_hash credHash)
         "Invalid proof output";
     verifyOutsideCircuit := λ w credHash,
       let vk := vk w in
       let proof := proof w in
       try ok <- o1js_verify proof vk;
       try_ assert ok "Invalid proof";
       Field_assertEquals
         (ch_hash (hashCredentialInCircuit data (publicOutput proof)))
         (ch_hash credHash)
         "Invalid proof output";
     issuer := λ w,
       let vk := vk w in
       let proof := proof w in
       let credIdent :=
         Poseidon_hash (publicInputType_toFields Proof (publicInput proof)) in
       Poseidon_hashWithPrefix prefixes_issuerRecursive [hash vk; credIdent] |}.

(** [genericRecursive], installed as [Recursive.Generic] *)
Definition genericRecursive : CredentialSpec :=
  {| credentialType := "recursive";
     verify := λ w credHash,
       let vk := vk w in
       let proof := proof w in
       try_ DynamicProof_verify proof vk;
       Field_assertEquals (credentialHash (publicOutput proof)) (ch_hash credHash)
         "Invalid proof output";
     verifyOutsideCircuit := λ w credHash,
       let vk := vk w in
       let proof := proof w in
       try ok <- o1js_verify proof vk;
       try_ assert ok "Invalid proof";
       Field_assertEquals (credentialHash (publicOutput proof)) (ch_hash credHash)
         "Invalid proof output";
     issuer := λ w,
       let vk := vk w in
       let proof := proof w in
       let credIdent :=
         Poseidon_hash
           (publicInputType_toFields (constructor proof) (publicInput proof)) in
       Poseidon_hashWithPrefix prefixes_issuerRecursive [hash vk; credIdent] |}.

(** *** The memoised [compile] of [recursiveFromProgram] *)

Record CompileOptions : Type := mkCompileOptions {
  cache : option Cache;
  forceRecompile : option bool;
  proofsEnabled : option bool;
}.

(** [program.compile(options)], the expensive compilation of the inner
    program by the backend; it may throw. *)
Variable program_compile :
  option CompileOptions → Backend → result VerificationKey * Backend.

(** The closure variables [isCompiled] and [vk], the state of the backend,
    and a record of every call made to [program.compile]. *)
Record ProgramState : Type := mkProgramState {
  isCompiled : bool;
  cached_vk : option VerificationKey;
  backend : Backend;
  compilations : list (option CompileOptions);
}.

(** [let isCompiled = false; let vk: VerificationKey | undefined;] *)
Definition initialState (b : Backend) : ProgramState :=
  mkProgramState false None b [].

(** [compile(options?)].  The returned value is [vk!], which is [undefined]
    when nothing was stored; [None] stands for [undefined]. *)
Definition compile (options : option CompileOptions) (s : ProgramState)
    : result (option VerificationKey) * ProgramState :=
  if isCompiled s then (Ok (cached_vk s), s)
  else
    let '(r, b) := program_compile options (backend s) in
    let called := push (compilations s) options in
    match r with
    | Err e => (Err e, mkProgramState (isCompiled s) (cached_vk s) b called)
    | Ok verificationKey =>
        (Ok (Some verificationKey),
         mkProgramState true (Some verificationKey) b called)
    end.

(** The exception the spec makes: a call that asks for a forced
    recompilation reaches the backend even though a key is cached. *)
Definition forcedRecompileRuns : Prop :=
  ∀ (s : ProgramState) (options : CompileOptions),
    isCompiled s = true →
    forceRecompile options = Some true →
    compilations (compile (Some options) s).2 = push (compilations s) (Some options).

End Recursive.
Arguments Credential : clear implicits.
Arguments ProofClass : clear implicits.
Arguments DynamicProof : clear implicits.
Arguments Witness : clear implicits.
Arguments CredentialSpec : clear implicits.
Arguments CompileOptions : clear implicits.
Arguments ProgramState : clear implicits.
End Recursive.

(** ** Creating a presentation: [Presentation.compile], [createPresentation] *)

Module Presentation.
Import Selector Request.

Section Presentation.
Context {CredentialType ClaimType SpecBody Claims PublicKey PrivateKey : Type}.
Context {Program VerificationKey StoredCredential Signature Proof Output : Type}.
Context {Backend : Type}.

(** An input of a [Spec]: a credential to be proved, or a claim of the
    verifier.  [c[1].type === 'credential'] tells them apart. *)
Inductive Input : Type :=
  | credential (credentialType : CredentialType)
  | claim (claimType : ClaimType).

(** [Spec]; [inputs] lists the properties of the [inputs] object in the order
    [Object.entries] enumerates them. *)
Record Spec : Type := mkSpec {
  inputs : list (string * Input);
  body : SpecBody;
}.

(** [{ ...credentialsUsed[key]!, credentialType: input }]; spreading
    [undefined] contributes no property. *)
Record CredentialToSign : Type := mkCredentialToSign {
  selected : option (Tagged StoredCredential);
  credentialType : CredentialType;
}.

(** The argument of [program.run]. *)
Record RunInput : Type := mkRunInput {
  ri_context : Field;
  ri_claims : Claims;
  ri_ownerSignature : Signature;
  ri_credentials : gmap string (Tagged StoredCredential);
}.

Record Presentation : Type := mkPresentation {
  version : string;
  claims : Claims;
  outputClaim : Output;
  proof : Proof;
}.

(** The calls [createPresentation] makes, in the order it makes them. *)
Inductive Step : Type :=
  | DeriveContext (walletContext : option (WalletContext PublicKey))
  | Compile
  | PickCredentials (credentialsNeeded : list string)
  | SignCredentials (context : Field) (toSign : list CredentialToSign)
  | Run (input : RunInput).

Record World : Type := mkWorld {
  backend : Backend;
  steps : list Step;
}.

(** Computations that read and change the world and may throw. *)
Definition M (A : Type) : Type := World → result A * World.

Definition ret {A} (a : A) : M A := λ w, (Ok a, w).

Definition bind {A B} (m : M A) (k : A → M B) : M B :=
  λ w, match m w with
       | (Ok a, w') => k a w'
       | (Err e, w') => (Err e, w')
       end.

Definition lift {A} (r : result A) : M A := λ w, (r, w).

Definition step (s : Step) : M unit :=
  λ w, (Ok tt, mkWorld (backend w) (push (steps w) s)).

Definition onBackend {A} (f : Backend → result A * Backend) : M A :=
  λ w, let '(r, b) := f (backend w) in (r, mkWorld b (steps w)).

Notation "'let!' x ':=' m 'in' k" := (bind m (λ x, k))
  (at level 10, x name, m at level 100, k at level 200).

(** [createProgram], [program.compile] and [program.run] of
    [src/program.ts], [signCredentials] of [src/credential.ts], and
    [proof.publicOutput]. *)
Variable createProgram : Spec → Program.
Variable program_compile : Program → Backend → result VerificationKey * Backend.
Variable program_run : Program → RunInput → Backend → result Proof * Backend.
Variable signCredentials : PrivateKey → Field → list CredentialToSign → Signature.
Variable publicOutput : Proof → Output.

Abbreviation PresentationRequest :=
  (Request.PresentationRequest Spec Claims PublicKey Program).

(** [(request as any).program ?? createProgram(request.programSpec)] *)
Definition programOf (request : PresentationRequest) : Program :=
  match Request.program request with
  | Some p => p
  | None => createProgram (programSpec request)
  end.

(** [Presentation.compile(request)] *)
Definition compile (request : PresentationRequest) : M PresentationRequest :=
  let program := programOf request in
  let! _ := onBackend (program_compile program) in
  ret {| programSpec := programSpec request;
         Request.claims := Request.claims request;
         inputContext := inputContext request;
         deriveContext := deriveContext request;
         program := Some program |}.

(** The type guard [(c): c is [string, CredentialType] => c[1].type ===
    'credential'] used as a filter. *)
Definition isCredential (c : string * Input) : option (string * CredentialType) :=
  match c.2 with
  | credential input => Some (c.1, input)
  | claim _ => None
  end.

(** [Object.entries(request.programSpec.inputs).filter(...)] *)
Definition credentialsNeededOf (request : PresentationRequest)
    : list (string * CredentialType) :=
  omap isCredential (inputs (programSpec request)).

(** [credentialsNeeded.map(([key, input]) => ({ ...credentialsUsed[key]!,
    credentialType: input }))] *)
Definition toSign (credentialsNeeded : list (string * CredentialType))
    (credentialsUsed : gmap string (Tagged StoredCredential))
    : list CredentialToSign :=
  (λ c, mkCredentialToSign (credentialsUsed !! c.1) c.2) <$> credentialsNeeded.

(** [createPresentation(ownerKey, { request, walletContext, credentials })] *)
Definition createPresentation (ownerKey : PrivateKey)
    (request : PresentationRequest)
    (walletContext : option (WalletContext PublicKey))
    (credentials : list (Tagged StoredCredential)) : M Presentation :=
  let! _ := step (DeriveContext walletContext) in
  let! context := lift (deriveContext request walletContext) in
  let! _ := step Compile in
  let! compiled := compile request in
  let! program :=
    lift (match Request.program compiled with
          | Some p => Ok p
          | None => Err (TypeError "program is undefined")
          end) in
  let credentialsNeeded := credentialsNeededOf request in
  let! _ := step (PickCredentials (credentialsNeeded.*1)) in
  let! credentialsUsed := lift (pickCredentials (credentialsNeeded.*1) credentials) in
  let toSign := toSign credentialsNeeded credentialsUsed in
  let! _ := step (SignCredentials context toSign) in
  let ownerSignature := signCredentials ownerKey context toSign in
  let input := mkRunInput context (Request.claims request) ownerSignature credentialsUsed in
  let! _ := step (Run input) in
  let! proof := onBackend (program_run program input) in
  ret {| version := "v0";
         claims := Request.claims request;
         outputClaim := publicOutput proof;
         proof := proof |}.

End Presentation.
Arguments Input : clear implicits.
Arguments Spec : clear implicits.
Arguments CredentialToSign : clear implicits.
Arguments RunInput : clear implicits.
Arguments Presentation : clear implicits.
Arguments Step : clear implicits.
Arguments World : clear implicits.
End Presentation.

(** ** The programs of [src/program.ts] *)

Module ProgramObject.
Section ProgramObject.
Context {Program VerificationKey Prover Input Proof : Type}.
Context `{Countable Program}.

(** The program objects and the proving backend behind them: the programs
    that are compiled, each with its verification key, the state of the
    prover, and every compilation the prover was asked for.  A value of
    [Program] stands for one program object; an object that was just made is
    not compiled. *)
Record Programs : Type := mkPrograms {
  compiled : gmap Program VerificationKey;
  prover : Prover;
  compilations : list Program;
}.

(** The two capabilities of the proving backend: the compilation of a
    program, which is expensive, and the run that produces a proof. *)
Variable compileProgram : Program → Prover → result VerificationKey * Prover.
Variable runProgram : Program → Input → Prover → result Proof * Prover.

(** Modelled from the spec: [program.compile()] of the programs made by
    [createProgram] in [src/program.ts], which is not among the verified
    sources.  The spec gives a program "a memoized verification key obtained
    via a one-time, at-most-once compile step" and says that "compilation is
    idempotent and cached per Program instance: a second compile call is a
    no-op returning the cached verification key"; [Presentation.compile]
    passes no options. *)
Definition compile (program : Program) (σ : Programs)
    : result VerificationKey * Programs :=
  match compiled σ !! program with
  | Some verificationKey => (Ok verificationKey, σ)
  | None =>
      let '(r, p) := compileProgram program (prover σ) in
      let called := push (compilations σ) program in
      match r with
      | Ok verificationKey =>
          (Ok verificationKey,
           mkPrograms (<[program := verificationKey]> (compiled σ)) p called)
      | Err e => (Err e, mkPrograms (compiled σ) p called)
      end
  end.

(** Modelled from the spec: [program.run(input)] of [src/program.ts], the
    backend's [runProgram] capability; it produces a proof and leaves the
    compiled programs as they are. *)
Definition run (program : Program) (input : Input) (σ : Programs)
    : result Proof * Programs :=
  let '(r, p) := runProgram program input (prover σ) in
  (r, mkPrograms (compiled σ) p (compilations σ)).

End ProgramObject.
Arguments Programs : clear implicits.
Arguments Programs _ _ _ {_ _}.
End ProgramObject.

(** ** Concrete data used in examples *)

Module Example.
Import Selector.

(** A wallet whose stored credentials are numbered. *)
Definition passport : Tagged nat := mkTagged (Some "passport") 1.
Definition licence : Tagged nat := mkTagged (Some "licence") 2.
Definition diploma : Tagged nat := mkTagged None 3.
Definition permit : Tagged nat := mkTagged None 4.

(** A backend that counts the calls made to it; its hash is a sum. *)
Definition Poseidon_hash (xs : list Field) : Field := foldr Z.add 0%Z xs.
Definition Poseidon_hashWithPrefix (prefix : string) (xs : list Field) : Field :=
  (Z.of_nat (String.length prefix) + Poseidon_hash xs)%Z.

Definition vkey : Recursive.VerificationKey := Recursive.mkVK "vk" 11%Z.

Definition program_compile (options : option (Recursive.CompileOptions unit))
    (calls : nat) : result Recursive.VerificationKey * nat :=
  (Ok vkey, S calls).

Definition force : Recursive.CompileOptions unit :=
  Recursive.mkCompileOptions None (Some true) None.

(** A recursive credential: the proof bytes say whether the proof is valid. *)
Definition InputProof : Recursive.ProofClass Z :=
  Recursive.mkProofClass "InputProof" (λ x, [x]).

Definition innerProof : Recursive.DynamicProof Z Z Z bool :=
  Recursive.mkProof InputProof 5%Z (Recursive.mkCredential 9%Z 20%Z) true.

Definition witness : Recursive.Witness Z Z Z bool :=
  Recursive.mkWitness "recursive" vkey innerProof.

Definition verifyProof (p : Recursive.DynamicProof Z Z Z bool)
    (vk : Recursive.VerificationKey) : bool :=
  Recursive.proofBytes p.

Definition credentialHash (c : Recursive.Credential Z Z) : Field :=
  Poseidon_hash [Recursive.owner c; Recursive.data c].

Definition hashCredentialInCircuit (dataType : unit) (c : Recursive.Credential Z Z)
    : Recursive.CredentialHash :=
  Recursive.mkCredentialHash (credentialHash c).

Definition recursiveSpec : Recursive.CredentialSpec Z Z Z bool :=
  Recursive.Recursive verifyProof verifyProof Poseidon_hash Poseidon_hashWithPrefix
    hashCredentialInCircuit "issuer-recursive" InputProof tt.

(** A request for one credential and one claim, and a program whose proofs
    are pairs of a context and an output. *)
Definition spec : Presentation.Spec string string unit :=
  Presentation.mkSpec
    [("signedData", Presentation.credential "simple");
     ("appId", Presentation.claim "bytes")]
    tt.

Definition request
    : Request.PresentationRequest (Presentation.Spec string string unit) (list Z) Z string :=
  Request.noContext spec [1; 2; 3]%Z.

Definition createProgram (s : Presentation.Spec string string unit) : string :=
  "program".

Definition compileProgram (program : string) (calls : nat) : result Z * nat :=
  (Ok 11%Z, S calls).

Definition run (program : string) (input : Presentation.RunInput (list Z) nat Z)
    (calls : nat) : result (Field * Z) * nat :=
  (Ok (Presentation.ri_context input, 77%Z), S calls).

Definition signCredentials (ownerKey : Z) (context : Field)
    (toSign : list (Presentation.CredentialToSign string nat)) : Z :=
  (ownerKey + context + Z.of_nat (length toSign))%Z.

Definition publicOutput (proof : Field * Z) : Z := proof.2.

Definition world : Presentation.World string (list Z) Z nat Z nat :=
  Presentation.mkWorld 0 [].

Definition create :=
  Presentation.createPresentation (PublicKey := Z) (PrivateKey := Z)
    createProgram compileProgram run signCredentials publicOutput.

End Example.

(** ** Recursive credentials from a program: [recursiveFromProgram] *)

Module FromProgram.
Import Recursive.

Section FromProgram.
Context {PublicInput Data DataType PublicKey ProofBytes Cache Backend : Type}.
Context {AllInputs : Type}.

(** [Proof<Input, Credential<Data>>], what [program.run] returns. *)
Record Proof : Type := mkPlainProof {
  p_publicInput : PublicInput;
  p_publicOutput : Credential Data PublicKey;
  p_proof : ProofBytes;
}.

(** [Recursive<Data, Input>], a stored credential with a recursive witness;
    its [metadata] is [undefined]. *)
Record StoredRecursive : Type := mkStored {
  version : string;
  metadata : unit;
  credential : Credential Data PublicKey;
  witness : Witness PublicInput Data PublicKey ProofBytes;
}.

(** The [program] argument: the layout of its public input, a synthesised
    public input ([ProvableType.synthesize(program.publicInputType)]), and
    its two operations on the backend. *)
Variable publicInputType_toFields : PublicInput → list Field.
Variable synthesizedInput : PublicInput.
Variable program_compile :
  option (CompileOptions Cache) → Backend → result VerificationKey * Backend.
Variable program_run : AllInputs → Backend → result Proof * Backend.

(** The proof bytes of [InputProof.dummy(...)] for the program's
    [maxProofsVerified]. *)
Variable dummyProofBytes : ProofBytes.

(** [class InputProof extends DynamicProof<Input, Credential<Data>>] *)
Definition InputProof : ProofClass PublicInput :=
  mkProofClass "InputProof" publicInputType_toFields.

(** [InputProof.fromProof(proof)] of o1js: the same public input, public
    output and proof, as an instance of [InputProof]. *)
Definition InputProof_fromProof (proof : Proof)
    : DynamicProof PublicInput Data PublicKey ProofBytes :=
  mkProof InputProof (p_publicInput proof) (p_publicOutput proof) (p_proof proof).

(** [InputProof.dummy(input, credential, maxProofsVerified)] of o1js. *)
Definition InputProof_dummy (input : PublicInput)
    (credential : Credential Data PublicKey)
    : DynamicProof PublicInput Data PublicKey ProofBytes :=
  mkProof InputProof input credential dummyProofBytes.

(** [fromProof(proof, vk)] *)
Definition fromProof (proof : Proof) (vk : VerificationKey) : StoredRecursive :=
  let dynProof := InputProof_fromProof proof in
  {| version := "v0";
     metadata := tt;
     credential := p_publicOutput proof;
     witness := mkWitness "recursive" vk dynProof |}.

(** [await this.compile()] followed by a use of the key as a
    [VerificationKey].  [compile] answers [undefined] only in a state that
    says it is compiled without holding a key, which no call produces. *)
Definition compiledKey (s : ProgramState Cache Backend)
    : result VerificationKey * ProgramState Cache Backend :=
  let '(r, s1) := compile program_compile None s in
  (try vk <- r;
   match vk with
   | Some vk => Ok vk
   | None => Err (TypeError "vk is undefined")
   end,
   s1).

(** [program.run(...inputs)] on the backend held by the state. *)
Definition runProgram (inputs : AllInputs) (s : ProgramState Cache Backend)
    : result Proof * ProgramState Cache Backend :=
  let '(r, b) := program_run inputs (backend s) in
  (r, mkProgramState (isCompiled s) (cached_vk s) b (compilations s)).

(** [create(...inputs)] *)
Definition create (inputs : AllInputs) (s : ProgramState Cache Backend)
    : result StoredRecursive * ProgramState Cache Backend :=
  match compiledKey s with
  | (Err e, s1) => (Err e, s1)
  | (Ok vk, s1) =>
      match runProgram inputs s1 with
      | (Err e, s2) => (Err e, s2)
      | (Ok proof, s2) => (Ok (fromProof proof vk), s2)
      end
  end.

(** [dummy(credential)] *)
Definition dummy (credential : Credential Data PublicKey)
    (s : ProgramState Cache Backend)
    : result StoredRecursive * ProgramState Cache Backend :=
  let input := synthesizedInput in
  match compiledKey s with
  | (Err e, s1) => (Err e, s1)
  | (Ok vk, s1) =>
      let dummyProof := InputProof_dummy input credential in
      (Ok {| version := "v0";
             metadata := tt;
             credential := credential;
             witness := mkWitness "recursive" vk dummyProof |},
       s1)
  end.

(** The states the closure variables can be in: a state that says it is
    compiled holds a key. *)
Definition consistent (s : ProgramState Cache Backend) : Prop :=
  isCompiled s = true → is_Some (cached_vk s).

End FromProgram.
Arguments Proof : clear implicits.
Arguments StoredRecursive : clear implicits.
End FromProgram.

(** ** Concrete data for the recursive-credential examples *)

Module ExampleProgram.

(** A program whose inputs are an owner and a number; it attests the number
    doubled.  The backend counts the calls made to it. *)
Definition run (inputs : Z * Z) (calls : nat)
    : result (FromProgram.Proof Z Z Z bool) * nat :=
  (Ok (FromProgram.mkPlainProof 5%Z
         (Recursive.mkCredential inputs.1 (2 * inputs.2)%Z) true),
   S calls).

Definition toFields (x : Z) : list Field := [x].

Definition create :=
  FromProgram.create (Cache := unit) toFields Example.program_compile run.

Definition dummy :=
  FromProgram.dummy (Cache := unit) (Data := Z) (PublicKey := Z)
    toFields 0%Z Example.program_compile false.

(** A backend whose compilation fails. *)
Definition failingCompile (options : option (Recursive.CompileOptions unit))
    (calls : nat) : result Recursive.VerificationKey * nat :=
  (Err (BackendError "out of memory"), S calls).

(** A program that cannot be run. *)
Definition failingRun (program : string)
    (input : Presentation.RunInput (list Z) nat Z) (calls : nat)
    : result (Field * Z) * nat :=
  (Err (BackendError "Constraint unsatisfied"), S calls).

Definition failingCompileProgram (program : string) (calls : nat) : result Z * nat :=
  (Err (BackendError "out of memory"), S calls).

Definition compiledRequest
    : Request.PresentationRequest (Presentation.Spec string string unit) (list Z) Z string :=
  Request.mkRequest Example.spec [1; 2; 3]%Z None
    (Request.deriveContext Example.request) (Some "compiled program").

End ExampleProgram.

(** ** Concrete data for presentations over memoised programs *)

Module ExampleStore.

Definition programs : ProgramObject.Programs string Z nat :=
  ProgramObject.mkPrograms ∅ 0 [].

Definition world
    : Presentation.World string (list Z) Z nat Z (ProgramObject.Programs string Z nat) :=
  Presentation.mkWorld programs [].

Definition create :=
  Presentation.createPresentation (PublicKey := Z) (PrivateKey := Z)
    Example.createProgram
    (ProgramObject.compile Example.compileProgram)
    (ProgramObject.run Example.run)
    Example.signCredentials Example.publicOutput.

End ExampleStore.

(** * Properties *)

(** ** Array primitives *)

Section ArrayFacts.
Context {A : Type}.
Implicit Types (p : A → bool) (arr : list A).

Lemma findIndex_Some p arr i :
  findIndex p arr = Some i →
  ∃ x, arr !! i = Some x ∧ p x = true
       ∧ ∀ j y, j < i → arr !! j = Some y → p y = false.
Proof.
  revert i. induction arr as [|x rest IH]; intros i; simpl; [done|].
  destruct (p x) eqn:Hx.
  - intros [= <-]. exists x. split_and!; [done..|]. intros j y Hj. lia.
  - destruct (findIndex p rest) as [i'|] eqn:Hrest; simpl; [|done].
    intros [= <-]. destruct (IH i' eq_refl) as (y & Hy & Hpy & Hbefore).
    exists y. split_and!; [done..|].
    intros [|j] z Hj; simpl.
    + by intros [= <-].
    + apply Hbefore. lia.
Qed.

Lemma findIndex_None p arr :
  findIndex p arr = None ↔ ∀ x, x ∈ arr → p x = false.
Proof.
  induction arr as [|x rest IH]; simpl.
  - split; [|done]. intros _ y Hy. by apply elem_of_nil in Hy.
  - destruct (p x) eqn:Hx.
    + split; [done|]. intros H. rewrite H in Hx; [done|]. by left.
    + rewrite fmap_None, IH. split.
      * intros H y [->|Hy]%elem_of_cons; auto.
      * intros H y Hy. apply H. by right.
Qed.

Lemma findIndex_find p arr i x :
  findIndex p arr = Some i → arr !! i = Some x →
  head (filter (λ y, p y = true) arr) = Some x.
Proof.
  revert i. induction arr as [|y rest IH]; intros i; simpl; [done|].
  destruct (p y) eqn:Hy.
  - intros [= <-] [= <-]. by rewrite filter_cons_True.
  - destruct (findIndex p rest) as [i'|]; simpl; [|done].
    intros [= <-] Hx. rewrite filter_cons_False by (by rewrite Hy).
    by eapply IH.
Qed.

Lemma splice1_elem_of i arr x : x ∈ splice1 i arr → x ∈ arr.
Proof.
  unfold splice1. revert i. induction arr as [|y rest IH]; intros [|i]; simpl; try done.
  - intros. by right.
  - intros [->|H]%elem_of_cons; [by left|right; eauto].
Qed.

Lemma splice1_elem_of_other i arr x y :
  arr !! i = Some y → x ∈ arr → x = y ∨ x ∈ splice1 i arr.
Proof.
  unfold splice1. revert i. induction arr as [|z rest IH]; intros [|i]; simpl; try done.
  - intros [= ->] [->|H]%elem_of_cons; auto.
  - intros Hi [->|H]%elem_of_cons.
    + right. by left.
    + destruct (IH i Hi H) as [->|?]; [by left|]. right. by right.
Qed.

Lemma filter_iff_elem_of (P Q : A → Prop)
    `{!∀ x, Decision (P x), !∀ x, Decision (Q x)} arr :
  (∀ x, x ∈ arr → P x ↔ Q x) → filter P arr = filter Q arr.
Proof.
  induction arr as [|x rest IH]; intros Hall; [done|].
  assert (filter P rest = filter Q rest) as Hrest.
  { apply IH. intros y Hy. apply Hall. by right. }
  destruct (decide (P x)) as [HP|HP].
  - rewrite !filter_cons_True; [by rewrite Hrest|by apply Hall; [left|]|done].
  - rewrite !filter_cons_False; [done| |done].
    intros HQ. apply HP, Hall; [by left|done].
Qed.

Lemma filter_splice1_other (P : A → Prop) `{!∀ x, Decision (P x)} i arr x :
  arr !! i = Some x → ¬ P x → filter P (splice1 i arr) = filter P arr.
Proof.
  unfold splice1. revert i. induction arr as [|y rest IH]; intros [|i]; simpl; try done.
  - intros [= ->] Hx. by rewrite filter_cons_False.
  - intros Hi Hx. rewrite !filter_cons, (IH i) by done. done.
Qed.

Lemma filter_all (P : A → Prop) `{!∀ x, Decision (P x)} arr :
  (∀ x, x ∈ arr → P x) → filter P arr = arr.
Proof.
  induction arr as [|x rest IH]; intros Hall; [done|].
  rewrite filter_cons_True by (apply Hall; by left).
  f_equal. apply IH. intros y Hy. apply Hall. by right.
Qed.
End ArrayFacts.

(** ** The credential selector *)

Section SelectorFacts.
Import Selector.
Context {StoredCredential : Type}.
Abbreviation Cred := (Tagged StoredCredential).
Implicit Types (st : PickState StoredCredential) (pool remaining : list Cred).
Implicit Types (used : gmap string Cred) (k : string) (c : Cred).

Lemma hasKey_true k c : hasKey k c = true ↔ key c = Some k.
Proof. unfold hasKey. by rewrite bool_decide_eq_true. Qed.

Lemma hasKey_false k c : hasKey k c = false ↔ key c ≠ Some k.
Proof. unfold hasKey. by rewrite bool_decide_eq_false. Qed.

(** What one iteration of the first loop does, by cases. *)
Lemma tagStep_cases st k :
  (findIndex (hasKey k) (credentials st) = None
   ∧ (∀ c, c ∈ credentials st → key c ≠ Some k)
   ∧ tagStep st k
     = mkPick (credentialsUsed st) (credentialsStillNeeded st ++ [k]) (credentials st))
  ∨ (∃ i c, findIndex (hasKey k) (credentials st) = Some i
      ∧ credentials st !! i = Some c ∧ key c = Some k
      ∧ tagStep st k
        = mkPick (<[k := c]> (credentialsUsed st)) (credentialsStillNeeded st)
                 (splice1 i (credentials st))).
Proof.
  unfold tagStep. destruct (findIndex _ _) as [i|] eqn:Hi.
  - right. destruct (findIndex_Some _ _ _ Hi) as (c & Hc & Hk & _).
    exists i, c. rewrite Hc. by apply hasKey_true in Hk.
  - left. split_and!; [done| |done].
    intros c Hc. apply hasKey_false. by eapply findIndex_None.
Qed.

(** The first loop binds a key only to a credential of the pool that carries
    that key as its tag, and only ever removes credentials from the pool. *)
Lemma tagPass_bindings needed st k c :
  credentialsUsed (tagPass needed st) !! k = Some c →
  credentialsUsed st !! k = Some c ∨ (key c = Some k ∧ c ∈ credentials st).
Proof.
  revert st. induction needed as [|k0 rest IH]; intros st; simpl; [by left|].
  intros H. apply IH in H.
  destruct (tagStep_cases st k0) as [(_ & _ & Heq)|(i & c0 & _ & Hc0 & Hk0 & Heq)];
    rewrite Heq in H; simpl in H.
  - done.
  - destruct H as [H|[Hk Hc]].
    + destruct (decide (k0 = k)) as [->|Hne].
      * rewrite lookup_insert_eq in H. injection H as <-. right. split; [done|].
        by eapply list_elem_of_lookup_2.
      * rewrite lookup_insert_ne in H by done. by left.
    + right. split; [done|]. by eapply splice1_elem_of.
Qed.

Lemma tagPass_credentials needed st c :
  c ∈ credentials (tagPass needed st) → c ∈ credentials st.
Proof.
  revert st. induction needed as [|k0 rest IH]; intros st; simpl; [done|].
  intros H. apply IH in H.
  destruct (tagStep_cases st k0) as [(_ & _ & Heq)|(i & c0 & _ & _ & _ & Heq)];
    rewrite Heq in H; simpl in H; [done|]. by eapply splice1_elem_of.
Qed.

(** The second loop binds still-needed keys to the credentials it walks
    over, whatever their tags. *)
Lemma orderPass_bindings remaining used stillNeeded used' stillNeeded' k c :
  orderPass remaining used stillNeeded = (used', stillNeeded') →
  used' !! k = Some c →
  used !! k = Some c ∨ (k ∈ stillNeeded ∧ c ∈ remaining).
Proof.
  revert used stillNeeded.
  induction remaining as [|c0 rest IH]; intros used stillNeeded; simpl.
  - intros [= <- <-]. by left.
  - destruct stillNeeded as [|k0 s]; simpl.
    + intros [= <- <-]. by left.
    + intros Hrun Hk. destruct (IH _ _ Hrun Hk) as [H|[Hin Hc]].
      * destruct (decide (k0 = k)) as [->|Hne].
        -- rewrite lookup_insert_eq in H. injection H as <-.
           right. split; by left.
        -- rewrite lookup_insert_ne in H by done. by left.
      * right. split; by right.
Qed.

(** When the needed keys are pairwise distinct, a key is left for the second
    loop exactly when no credential of the pool carries it as a tag. *)
Lemma tagPass_stillNeeded needed st k :
  NoDup needed →
  k ∈ credentialsStillNeeded (tagPass needed st)
  ↔ k ∈ credentialsStillNeeded st
    ∨ (k ∈ needed ∧ ∀ c, c ∈ credentials st → key c ≠ Some k).
Proof.
  intros Hnd. revert st.
  induction Hnd as [|k0 rest Hk0 Hnd IH]; intros st; simpl.
  - split; [by left|]. intros [?|[H _]]; [done|by apply elem_of_nil in H].
  - rewrite IH.
    destruct (tagStep_cases st k0) as [(_ & Hnone & ->)|(i & c0 & _ & Hc0 & Hkey & ->)];
      simpl.
    + rewrite elem_of_app, list_elem_of_singleton, elem_of_cons. split.
      * intros [[?| ->]|[? ?]]; [by left|right; split; [by left|done]|right; split; [by right|done]].
      * intros [?|[[->|?] ?]]; [left; by left|left; by right|right; done].
    + rewrite elem_of_cons. split.
      * intros [?|[Hin Hall]]; [by left|]. right. split; [by right|].
        intros c Hc. destruct (splice1_elem_of_other i _ c c0 Hc0 Hc) as [->|?]; [|eauto].
        rewrite Hkey. intros [= ->]. done.
      * intros [?|[[->|Hin] Hall]]; [by left| |].
        -- exfalso. eapply Hall; [|done]. by eapply list_elem_of_lookup_2.
        -- right. split; [done|]. intros c Hc. apply Hall. by eapply splice1_elem_of.
Qed.

(** The keys a pass leaves behind are, in order, the needed keys it did not
    bind. *)
Lemma tagPass_unbound needed st :
  NoDup needed →
  (∀ k, k ∈ needed → credentialsUsed st !! k = None) →
  credentialsStillNeeded (tagPass needed st)
  = credentialsStillNeeded st
      ++ filter (λ k, credentialsUsed (tagPass needed st) !! k = None) needed
  ∧ ∀ k, k ∉ needed →
      credentialsUsed (tagPass needed st) !! k = credentialsUsed st !! k.
Proof.
  intros Hnd. revert st.
  induction Hnd as [|k0 rest Hk0 Hnd IH]; intros st Hfree; simpl.
  - by rewrite app_nil_r.
  - assert (Hstep : ∀ k, k ∈ rest → credentialsUsed (tagStep st k0) !! k = None).
    { intros k Hk.
      destruct (tagStep_cases st k0) as [(_ & _ & ->)|(i & c0 & _ & _ & _ & ->)]; simpl.
      - apply Hfree. by right.
      - rewrite lookup_insert_ne by (intros ->; done). apply Hfree. by right. }
    destruct (IH _ Hstep) as [Hstill Hother]. split.
    + rewrite Hstill.
      destruct (tagStep_cases st k0) as [(_ & _ & Heq)|(i & c0 & _ & _ & _ & Heq)].
      * rewrite filter_cons_True.
        { rewrite Heq at 1. simpl. unfold push. by rewrite <- app_assoc. }
        rewrite Hother by done. rewrite Heq. simpl. apply Hfree. by left.
      * rewrite filter_cons_False.
        { rewrite Heq at 1. done. }
        rewrite Hother by done. rewrite Heq. simpl. by rewrite lookup_insert_eq.
    + intros k Hk. apply not_elem_of_cons in Hk as [Hne Hk]. rewrite Hother by done.
      destruct (tagStep_cases st k0) as [(_ & _ & ->)|(i & c0 & _ & _ & _ & ->)]; simpl;
        [done|]. by rewrite lookup_insert_ne.
Qed.

Lemma orderPass_unbound remaining used stillNeeded used' stillNeeded' :
  NoDup stillNeeded →
  (∀ k, k ∈ stillNeeded → used !! k = None) →
  orderPass remaining used stillNeeded = (used', stillNeeded') →
  stillNeeded' = filter (λ k, used' !! k = None) stillNeeded
  ∧ ∀ k, k ∉ stillNeeded → used' !! k = used !! k.
Proof.
  revert used stillNeeded.
  induction remaining as [|c0 rest IH]; intros used stillNeeded Hnd Hfree; simpl.
  - intros [= <- <-]. split; [|done].
    symmetry. by apply filter_all.
  - destruct stillNeeded as [|k0 s]; simpl.
    + by intros [= <- <-].
    + apply NoDup_cons in Hnd as [Hk0 Hnd]. intros Hrun.
      destruct (IH (<[k0 := c0]> used) s Hnd) as [Hstill Hother]; [|done|].
      { intros k Hk. rewrite lookup_insert_ne by (intros ->; done).
        apply Hfree. by right. }
      split.
      * rewrite filter_cons_False; [done|].
        rewrite Hother by done. by rewrite lookup_insert_eq.
      * intros k Hk. apply not_elem_of_cons in Hk as [Hne Hk].
        rewrite Hother by done. by rewrite lookup_insert_ne.
Qed.

(** The keys left after both loops are exactly the needed keys that have no
    credential bound to them, in the order they were asked for. *)
Lemma pickLoops_unbound needed pool used stillNeeded :
  NoDup needed →
  pickLoops needed pool = (used, stillNeeded) →
  stillNeeded = filter (λ k, used !! k = None) needed.
Proof.
  intros Hnd. unfold pickLoops.
  destruct (tagPass_unbound needed (mkPick ∅ [] pool) Hnd) as [Hstill Hother];
    [done|].
  simpl in Hstill, Hother. intros Hrun.
  apply orderPass_unbound in Hrun as [-> Hkeep].
  - rewrite Hstill, list_filter_filter. apply filter_iff_elem_of.
    intros k Hneeded. split; [by intros []|].
    intros Hk. split; [done|].
    destruct (decide (k ∈ credentialsStillNeeded (tagPass needed (mkPick ∅ [] pool))))
      as [Hin|Hout].
    + rewrite Hstill in Hin. by apply list_elem_of_filter in Hin as [? _].
    + by rewrite <- Hkeep.
  - rewrite Hstill. by apply NoDup_filter.
  - intros k. rewrite Hstill. by intros [? _]%list_elem_of_filter.
Qed.

(** First fit by tag: with pairwise distinct needed keys, the first loop
    binds every key to the first credential of the pool that carries it as
    a tag, if there is one. *)
Lemma tagPass_first_fit needed st k :
  NoDup needed →
  (∀ k', k' ∈ needed → credentialsUsed st !! k' = None) →
  k ∈ needed →
  credentialsUsed (tagPass needed st) !! k
  = head (filter (λ c, key c = Some k) (credentials st)).
Proof.
  intros Hnd. revert st.
  induction Hnd as [|k0 rest Hk0 Hnd IH]; intros st Hfree Hk; simpl.
  { by apply elem_of_nil in Hk. }
  assert (Hstep : ∀ k', k' ∈ rest → credentialsUsed (tagStep st k0) !! k' = None).
  { intros k' Hk'.
    destruct (tagStep_cases st k0) as [(_ & _ & ->)|(i & c0 & _ & _ & _ & ->)]; simpl.
    - apply Hfree. by right.
    - rewrite lookup_insert_ne by (intros ->; done). apply Hfree. by right. }
  apply elem_of_cons in Hk as [->|Hk].
  - destruct (tagPass_unbound rest (tagStep st k0) Hnd Hstep) as [_ ->]; [|done].
    destruct (tagStep_cases st k0) as [(_ & Hnone & ->)|(i & c0 & Hi & Hc0 & Hkey & ->)];
      simpl.
    + rewrite Hfree by (by left). symmetry. apply head_None.
      destruct (filter _ _) as [|c l] eqn:Hf; [done|].
      assert (c ∈ filter (λ c, key c = Some k0) (credentials st)) as Hc
        by (rewrite Hf; by left).
      apply list_elem_of_filter in Hc as [Hc1 Hc2]. by destruct (Hnone c Hc2).
    + rewrite lookup_insert_eq. symmetry.
      erewrite <- (findIndex_find (hasKey k0)); [|done..].
      f_equal. apply list_filter_iff. intros c. by rewrite hasKey_true.
  - rewrite IH by done.
    destruct (tagStep_cases st k0) as [(_ & _ & ->)|(i & c0 & _ & Hc0 & Hkey & ->)];
      simpl; [done|].
    erewrite filter_splice1_other; [done..|].
    rewrite Hkey. intros [= ->]. done.
Qed.

Lemma orderPass_keep remaining used stillNeeded used' stillNeeded' k :
  orderPass remaining used stillNeeded = (used', stillNeeded') →
  k ∉ stillNeeded → used' !! k = used !! k.
Proof.
  revert used stillNeeded.
  induction remaining as [|c0 rest IH]; intros used stillNeeded; simpl.
  - by intros [= <- <-].
  - destruct stillNeeded as [|k0 s]; simpl; [by intros [= <- <-]|].
    intros Hrun [Hne Hk]%not_elem_of_cons.
    rewrite (IH _ _ Hrun Hk). by rewrite lookup_insert_ne.
Qed.

(** First fit by order: the second loop hands the [j]-th credential it walks
    over to the [j]-th key still needed. *)
Lemma orderPass_first_fit remaining used stillNeeded used' j k :
  NoDup stillNeeded →
  orderPass remaining used stillNeeded = (used', []) →
  stillNeeded !! j = Some k →
  is_Some (remaining !! j) ∧ used' !! k = remaining !! j.
Proof.
  revert used stillNeeded j.
  induction remaining as [|c0 rest IH]; intros used stillNeeded j Hnd; simpl.
  - intros [= _ ->]. done.
  - destruct stillNeeded as [|k0 s]; simpl; [done|].
    apply NoDup_cons in Hnd as [Hk0 Hnd]. intros Hrun.
    destruct j as [|j]; simpl.
    + intros [= <-]. split; [by eexists|].
      rewrite (orderPass_keep _ _ _ _ _ _ Hrun Hk0). by rewrite lookup_insert_eq.
    + apply (IH _ _ _ Hnd Hrun).
Qed.

(** A successful selection binds every needed key. *)
Lemma tagPass_covers needed st k :
  k ∈ needed →
  is_Some (credentialsUsed (tagPass needed st) !! k)
  ∨ k ∈ credentialsStillNeeded (tagPass needed st).
Proof.
  assert (Hmono : ∀ needed st,
    (is_Some (credentialsUsed st !! k) ∨ k ∈ credentialsStillNeeded st) →
    is_Some (credentialsUsed (tagPass needed st) !! k)
    ∨ k ∈ credentialsStillNeeded (tagPass needed st)).
  { clear. intros needed. induction needed as [|k0 rest IH]; intros st H; simpl; [done|].
    apply IH.
    destruct (tagStep_cases st k0) as [(_ & _ & ->)|(i & c0 & _ & _ & _ & ->)]; simpl.
    - destruct H as [?|?]; [by left|right]. apply elem_of_app. by left.
    - destruct H as [?|?]; [left|by right].
      destruct (decide (k0 = k)) as [->|?];
        [rewrite lookup_insert_eq; by eexists|by rewrite lookup_insert_ne]. }
  revert st. induction needed as [|k0 rest IH]; intros st Hk; simpl.
  { by apply elem_of_nil in Hk. }
  apply elem_of_cons in Hk as [->|Hk]; [|by apply IH].
  apply Hmono.
  destruct (tagStep_cases st k0) as [(_ & _ & ->)|(i & c0 & _ & _ & _ & ->)]; simpl.
  - right. apply elem_of_app. right. by left.
  - left. rewrite lookup_insert_eq. by eexists.
Qed.

Lemma orderPass_covers remaining used stillNeeded used' k :
  orderPass remaining used stillNeeded = (used', []) →
  is_Some (used !! k) ∨ k ∈ stillNeeded → is_Some (used' !! k).
Proof.
  revert used stillNeeded.
  induction remaining as [|c0 rest IH]; intros used stillNeeded; simpl.
  - intros [= <- ->] [?|H]; [done|by apply elem_of_nil in H].
  - destruct stillNeeded as [|k0 s]; simpl.
    + intros [= <-] [?|H]; [done|by apply elem_of_nil in H].
    + intros Hrun H. apply (IH _ _ Hrun).
      destruct (decide (k0 = k)) as [->|Hne].
      * left. rewrite lookup_insert_eq. by eexists.
      * rewrite lookup_insert_ne by done.
        destruct H as [?|[?|?]%elem_of_cons]; [by left|congruence|by right].
Qed.

Lemma pickCredentials_Ok needed pool used :
  pickCredentials needed pool = Ok used ↔ pickLoops needed pool = (used, []).
Proof.
  unfold pickCredentials. destruct (pickLoops needed pool) as [u s].
  destruct s as [|k s]; simpl; split; intros [= <-]; done.
Qed.

Lemma pickCredentials_Err needed pool e :
  pickCredentials needed pool = Err e ↔
  ∃ used stillNeeded, pickLoops needed pool = (used, stillNeeded)
    ∧ stillNeeded ≠ [] ∧ e = AssertionError (missingMessage stillNeeded).
Proof.
  unfold pickCredentials. destruct (pickLoops needed pool) as [u s].
  destruct s as [|k s]; simpl; split.
  - done.
  - by intros (? & ? & [= <- <-] & ? & _).
  - intros [= <-]. by exists u, (k :: s).
  - by intros (? & ? & [= <- <-] & _ & ->).
Qed.

Lemma pickCredentials_complete needed pool used k :
  pickCredentials needed pool = Ok used → k ∈ needed → is_Some (used !! k).
Proof.
  rewrite pickCredentials_Ok. unfold pickLoops. intros Hrun Hk.
  eapply orderPass_covers; [done|]. by apply tagPass_covers.
Qed.

(** The first loop binds needed keys only. *)
Lemma tagPass_keys needed st k :
  is_Some (credentialsUsed (tagPass needed st) !! k) →
  is_Some (credentialsUsed st !! k) ∨ k ∈ needed.
Proof.
  revert st. induction needed as [|k0 rest IH]; intros st; simpl; [by left|].
  intros [H|H]%IH; [|right; by right].
  destruct (tagStep_cases st k0) as [(_ & _ & Heq)|(i & c0 & _ & _ & _ & Heq)];
    rewrite Heq in H; simpl in H; [by left|].
  destruct (decide (k0 = k)) as [->|Hne]; [right; by left|].
  rewrite lookup_insert_ne in H by done. by left.
Qed.

(** Every credential of the returned assignment comes from the pool. *)
Lemma pickCredentials_from_pool needed pool used k c :
  pickCredentials needed pool = Ok used → used !! k = Some c → c ∈ pool.
Proof.
  intros Hrun%pickCredentials_Ok Hk. unfold pickLoops in Hrun.
  destruct (orderPass_bindings _ _ _ _ _ _ _ Hrun Hk) as [H|[_ Hc]].
  - by apply tagPass_bindings in H as [H|[_ H]].
  - by apply tagPass_credentials in Hc.
Qed.

(** The pool after the first loop is the pool the spec describes. *)
Lemma leftByTag_nil pool : leftByTag [] pool = pool.
Proof.
  induction pool as [|c rest IH]; simpl; [done|].
  destruct (key c) as [k|]; [|by rewrite IH].
  destruct (decide (k ∈ [])) as [Hin|_]; [by apply elem_of_nil in Hin|].
  by rewrite IH.
Qed.

Lemma leftByTag_cons k keys pool :
  leftByTag (k :: keys) pool
  = leftByTag keys
      match findIndex (hasKey k) pool with
      | Some i => splice1 i pool
      | None => pool
      end.
Proof.
  revert keys. induction pool as [|c rest IH]; intros keys; [done|].
  cbn [findIndex leftByTag]. unfold hasKey at 1. case_bool_decide as Hc.
  - rewrite Hc. rewrite decide_True by (by left).
    cbn [serve]. by rewrite decide_True.
  - assert (match S <$> findIndex (hasKey k) rest with
            | Some i => splice1 i (c :: rest)
            | None => c :: rest
            end
            = c :: match findIndex (hasKey k) rest with
                   | Some i => splice1 i rest
                   | None => rest
                   end) as ->.
    { by destruct (findIndex (hasKey k) rest). }
    cbn [leftByTag]. destruct (key c) as [k'|] eqn:Hk; [|by rewrite IH].
    assert (k ≠ k') as Hne by (intros ->; done).
    destruct (decide (k' ∈ keys)) as [Hin|Hout].
    + rewrite decide_True by (by right). cbn [serve].
      rewrite decide_False by done. by rewrite IH.
    + rewrite decide_False; [by rewrite IH|].
      intros [Heq|?]%elem_of_cons; [by symmetry in Heq|done].
Qed.

Lemma tagStep_credentials st k :
  credentials (tagStep st k)
  = match findIndex (hasKey k) (credentials st) with
    | Some i => splice1 i (credentials st)
    | None => credentials st
    end.
Proof.
  unfold tagStep. destruct (findIndex _ _) as [i|]; [|done].
  by destruct (credentials st !! i).
Qed.

Lemma tagPass_leftByTag needed st :
  credentials (tagPass needed st) = leftByTag needed (credentials st).
Proof.
  revert st. induction needed as [|k rest IH]; intros st; simpl.
  - by rewrite leftByTag_nil.
  - rewrite IH, tagStep_credentials. symmetry. apply leftByTag_cons.
Qed.

(** The keys the first loop leaves are the keys the spec describes. *)
Lemma omap_key_cons (c : Tagged StoredCredential) arr :
  omap key (c :: arr)
  = match key c with
    | Some k => k :: omap key arr
    | None => omap key arr
    end.
Proof. reflexivity. Qed.

Lemma findIndex_tags k (arr : list (Tagged StoredCredential)) :
  match findIndex (hasKey k) arr with
  | Some i => k ∈ omap key arr ∧ omap key (splice1 i arr) = serve k (omap key arr)
  | None => k ∉ omap key arr
  end.
Proof.
  induction arr as [|c rest IH]; [apply not_elem_of_nil|].
  cbn [findIndex]. unfold hasKey at 1. rewrite omap_key_cons.
  case_bool_decide as Hc.
  - rewrite Hc. split; [by left|]. cbn [serve splice1 delete list_delete].
    by rewrite decide_True.
  - destruct (findIndex (hasKey k) rest) as [i|]; cbn [fmap option_fmap option_map].
    + destruct IH as [Hin Heq].
      change (splice1 (S i) (c :: rest)) with (c :: splice1 i rest).
      rewrite omap_key_cons. destruct (key c) as [k'|] eqn:Hk.
      * split; [by right|]. cbn [serve].
        rewrite decide_False by (intros ->; done). by rewrite Heq.
      * done.
    + destruct (key c) as [k'|] eqn:Hk; [|done].
      intros [->|?]%elem_of_cons; done.
Qed.

Lemma tagPass_unservedByTag needed st :
  credentialsStillNeeded (tagPass needed st)
  = credentialsStillNeeded st ++ unservedByTag needed (omap key (credentials st)).
Proof.
  revert st. induction needed as [|k rest IH]; intros st; simpl.
  - by rewrite app_nil_r.
  - rewrite IH. pose proof (findIndex_tags k (credentials st)) as Htags.
    unfold tagStep. destruct (findIndex (hasKey k) (credentials st)) as [i|].
    + destruct Htags as [Hin Heq]. rewrite decide_True by done.
      destruct (credentials st !! i); simpl; by rewrite Heq.
    + rewrite decide_False by done. simpl. unfold push. by rewrite <- app_assoc.
Qed.

(** The second loop hands the [j]-th credential it walks over to the [j]-th
    key still needed; a key that occurs again later is bound again. *)
Lemma orderPass_last_fit remaining used stillNeeded used' j k :
  orderPass remaining used stillNeeded = (used', []) →
  stillNeeded !! j = Some k →
  (∀ j', j < j' → stillNeeded !! j' ≠ Some k) →
  is_Some (remaining !! j) ∧ used' !! k = remaining !! j.
Proof.
  revert used stillNeeded j.
  induction remaining as [|c0 rest IH]; intros used stillNeeded j; simpl.
  - intros [= _ ->]. done.
  - destruct stillNeeded as [|k0 s]; simpl; [done|].
    intros Hrun. destruct j as [|j]; simpl.
    + intros [= <-] Hlast. split; [by eexists|].
      rewrite (orderPass_keep _ _ _ _ _ k0 Hrun).
      * by rewrite lookup_insert_eq.
      * intros (j' & Hj')%list_elem_of_lookup_1. by apply (Hlast (S j')); [lia|].
    + intros Hj Hlast. apply (IH _ _ _ Hrun Hj).
      intros j' Hlt. apply (Hlast (S j')). lia.
Qed.

End SelectorFacts.

Section SelectorClaims.
Import Selector.
Context {StoredCredential : Type}.
Implicit Types (pool : list (Tagged StoredCredential)).

(** C1 (as amended).  [pickCredentials] is first-fit-by-tag, then
    first-fit-by-order, over all the credentials of the pool.

    The pass by tag.  (1) It binds needed keys only, and a key only to a
    credential of the pool whose tag is that key.  (2) The credentials it leaves are the pool
    without the credentials taken by tag, in pool order: walking the pool, a
    credential is taken when its tag is a needed key not served yet.  (3)
    The keys it leaves are, in the order asked for, the needed keys for
    which no tag equal to them was left.

    The pass by order, for a selection that succeeds.  (4) A credential
    sits under a key other than its tag only if that key was left by the
    pass by tag and the credential was left in the pool.  (5) The bindings
    of the pass by tag for the other keys are returned as they are.  (6) The
    [j]-th key left is bound to the [j]-th credential left, whether that
    credential carries a tag or not; a key that was left more than once
    keeps the binding of its last occurrence.

    With pairwise distinct needed keys.  (7) The pass by tag binds each key
    to the first credential of the pool tagged with it.  (8) A key is left
    exactly when the pool holds no credential tagged with it.  (9) Every key
    left is bound to the credential left at its position. *)
Theorem pickCredentials_first_fit (needed : list string) pool :
  let st := tagPass needed (mkPick ∅ [] pool) in
  let left := leftByTag needed pool in
  let unserved := unservedByTag needed (omap key pool) in
  (∀ k c, credentialsUsed st !! k = Some c →
     key c = Some k ∧ c ∈ pool ∧ k ∈ needed)
  ∧ credentials st = left
  ∧ credentialsStillNeeded st = unserved
  ∧ (∀ used,
       pickCredentials needed pool = Ok used →
       (∀ k c, used !! k = Some c →
          c ∈ pool ∧ (key c = Some k ∨ (k ∈ unserved ∧ c ∈ left)))
       ∧ (∀ k, k ∉ unserved → used !! k = credentialsUsed st !! k)
       ∧ (∀ j k, unserved !! j = Some k →
            (∀ j', j < j' → unserved !! j' ≠ Some k) →
            is_Some (left !! j) ∧ used !! k = left !! j))
  ∧ (NoDup needed →
     (∀ k, k ∈ needed →
        credentialsUsed st !! k = head (filter (λ c, key c = Some k) pool))
     ∧ (∀ k, k ∈ unserved ↔ k ∈ needed ∧ ∀ c, c ∈ pool → key c ≠ Some k)
     ∧ (∀ used, pickCredentials needed pool = Ok used →
          ∀ j k, unserved !! j = Some k →
                 is_Some (left !! j) ∧ used !! k = left !! j)).
Proof.
  intros st left unserved.
  assert (Hleft : credentials st = left).
  { subst st left. by rewrite tagPass_leftByTag. }
  assert (Hunserved : credentialsStillNeeded st = unserved).
  { subst st unserved. by rewrite tagPass_unservedByTag. }
  assert (Hfirst : ∀ k c, credentialsUsed st !! k = Some c → key c = Some k ∧ c ∈ pool).
  { intros k c H. by apply tagPass_bindings in H as [H|H]. }
  split_and!; [|done..| |].
  - intros k c Hk. destruct (Hfirst k c Hk) as [Hkey Hin]. split_and!; [done..|].
    destruct (tagPass_keys needed (mkPick ∅ [] pool) k) as [[? H']|?];
      [by eexists| |done].
    simpl in H'. by rewrite lookup_empty in H'.
  - intros used Hrun%pickCredentials_Ok. unfold pickLoops in Hrun.
    fold st in Hrun. rewrite Hleft, Hunserved in Hrun. split_and!.
    + intros k c Hk.
      destruct (orderPass_bindings _ _ _ _ _ _ _ Hrun Hk) as [H|[Hin Hc]].
      * destruct (Hfirst _ _ H). auto.
      * split; [|by right]. rewrite <- Hleft in Hc.
        by apply tagPass_credentials in Hc.
    + intros k Hk. by eapply orderPass_keep.
    + intros j k Hj Hlast. by eapply orderPass_last_fit.
  - intros Hnd. split_and!.
    + intros k Hk. by apply tagPass_first_fit.
    + intros k. rewrite <- Hunserved. unfold st.
      rewrite tagPass_stillNeeded by done. simpl.
      split; [intros [H|H]; [by apply elem_of_nil in H|done]|by right].
    + intros used Hrun%pickCredentials_Ok. unfold pickLoops in Hrun.
      fold st in Hrun. rewrite Hleft, Hunserved in Hrun.
      intros j k Hj. eapply orderPass_first_fit; [|done..].
      rewrite <- Hunserved.
      destruct (tagPass_unbound needed (mkPick ∅ [] pool) Hnd) as [Hstill _]; [done|].
      subst st. rewrite Hstill. simpl. by apply NoDup_filter.
Qed.
End SelectorClaims.

(** Counterexample to C1 as stated: asked for a passport, with only a
    credential tagged as a licence in the pool, the selector binds the
    licence to the key "passport". *)
Lemma pickCredentials_crosses_tags :
  ∃ used, Selector.pickCredentials ["passport"] [Example.licence] = Ok used
          ∧ ¬ Selector.tagsRespected used.
Proof.
  exists {[ "passport" := Example.licence ]}. split; [reflexivity|].
  intros H. by specialize (H "passport" Example.licence "licence" eq_refl eq_refl).
Qed.

Lemma pickCredentials_first_fit_witness :
  Selector.key Example.passport = Some "passport"
  ∧ Example.passport ∈ [Example.diploma; Example.licence; Example.passport]
  ∧ "passport" ∈ ["visa"; "passport"].
Proof.
  apply (proj1 (pickCredentials_first_fit ["visa"; "passport"]
                  [Example.diploma; Example.licence; Example.passport])
               "passport" Example.passport).
  reflexivity.
Defined.

(** ** The selector on small inputs *)

Example pick_tag_then_order :
  Selector.pickCredentials ["degree"; "passport"]
    [Example.diploma; Example.licence; Example.passport]
  = Ok {[ "passport" := Example.passport; "degree" := Example.diploma ]}.
Proof. reflexivity. Qed.

Example pick_missing :
  Selector.pickCredentials ["passport"; "degree"; "visa"] [Example.diploma]
  = Err (AssertionError "Missing credentials: degree, visa").
Proof. reflexivity. Qed.

Example pick_same_tag_twice :
  Selector.pickCredentials ["passport"; "visa"] [Example.passport; Example.passport]
  = Ok {[ "passport" := Example.passport; "visa" := Example.passport ]}.
Proof. reflexivity. Qed.

Example left_by_tag :
  Selector.leftByTag ["degree"; "passport"]
    [Example.diploma; Example.passport; Example.licence; Example.passport]
  = [Example.diploma; Example.licence; Example.passport].
Proof. reflexivity. Qed.

Example unserved_by_tag :
  Selector.unservedByTag ["degree"; "passport"; "visa"; "passport"]
    (omap Selector.key [Example.diploma; Example.passport; Example.licence])
  = ["degree"; "visa"; "passport"].
Proof. reflexivity. Qed.

(** On the store the selector splices its own copy: after the call the copy
    has lost the passport, the caller's array has not. *)
Example pick_splices_the_copy :
  (Selector.pickCredentialsS ["passport"] 1%positive
     {[ 1%positive := [Example.diploma; Example.passport] ]}).2
  = {[ 1%positive := [Example.diploma; Example.passport];
       2%positive := [Example.diploma] ]}.
Proof. reflexivity. Qed.

(** ** The selector and the caller's array *)

Section StoreFacts.
Import Selector.
Context {StoredCredential : Type}.
Implicit Types (σ : gmap loc (list (Tagged StoredCredential))).
Implicit Types (acc : gmap string (Tagged StoredCredential) * list string).

(** On the store, an iteration of the first loop computes what [tagStep]
    computes and writes to the local array only. *)
Lemma tagStepS_tagStep local acc k σ arr :
  σ !! local = Some arr →
  tagStepS local acc k σ
  = let st := tagStep (mkPick acc.1 acc.2 arr) k in
    ((credentialsUsed st, credentialsStillNeeded st), <[local := credentials st]> σ).
Proof.
  intros Hlocal. unfold tagStepS, tagStep. simpl.
  rewrite (lookup_total_correct _ _ _ Hlocal).
  destruct (findIndex _ _) as [i|]; simpl.
  - destruct (arr !! i); simpl; [done|]. by destruct acc.
  - by rewrite insert_id.
Qed.

Lemma tagPassS_tagPass local needed acc σ arr :
  σ !! local = Some arr →
  tagPassS local needed acc σ
  = let st := tagPass needed (mkPick acc.1 acc.2 arr) in
    ((credentialsUsed st, credentialsStillNeeded st), <[local := credentials st]> σ).
Proof.
  revert acc σ arr. induction needed as [|k rest IH]; intros acc σ arr Hlocal; simpl.
  - rewrite insert_id by done. by destruct acc.
  - rewrite (tagStepS_tagStep _ _ _ _ _ Hlocal). simpl.
    erewrite IH by apply lookup_insert_eq. simpl.
    rewrite insert_insert_eq. by destruct (tagStep _ _).
Qed.

Lemma pickCredentialsS_pickCredentials needed arg σ pool :
  σ !! arg = Some pool →
  pickCredentialsS needed arg σ
  = (pickCredentials needed pool,
     <[fresh (dom σ) := credentials (tagPass needed (mkPick ∅ [] pool))]> σ).
Proof.
  intros Harg. unfold pickCredentialsS, spread. rewrite Harg.
  erewrite tagPassS_tagPass by apply lookup_insert_eq. simpl.
  rewrite insert_insert_eq, lookup_total_insert_eq.
  unfold pickCredentials, pickLoops.
  by destruct (orderPass _ _ _).
Qed.

(** C10.  [pickCredentials] leaves the caller's credential list as it found
    it, whether the selection succeeds or fails: the array it splices is the
    copy made by [[...credentials]], at a location the caller does not hold,
    and every array that existed before the call is unchanged after it.  The
    result is the one computed from the contents of the caller's array. *)
Theorem pickCredentialsS_caller_unchanged (needed : list string) arg σ pool :
  σ !! arg = Some pool →
  (pickCredentialsS needed arg σ).2 !! arg = Some pool
  ∧ (∀ l, l ∈ dom σ → (pickCredentialsS needed arg σ).2 !! l = σ !! l)
  ∧ (pickCredentialsS needed arg σ).1 = pickCredentials needed pool.
Proof.
  intros Harg. rewrite (pickCredentialsS_pickCredentials _ _ _ _ Harg). simpl.
  assert (Hframe : ∀ l, l ∈ dom σ →
    <[fresh (dom σ) := credentials (tagPass needed (mkPick ∅ [] pool))]> σ !! l = σ !! l).
  { intros l Hl. apply lookup_insert_ne. intros <-. by apply (is_fresh (dom σ)). }
  split_and!; [|done..].
  rewrite Hframe; [done|]. apply elem_of_dom. by eexists.
Qed.

(** A call with a dangling argument throws before it writes anything. *)
Lemma pickCredentialsS_dangling (needed : list string) arg σ :
  σ !! arg = None → (pickCredentialsS needed arg σ).2 = σ.
Proof. intros Harg. unfold pickCredentialsS, spread. by rewrite Harg. Qed.

End StoreFacts.

Lemma pickCredentialsS_caller_unchanged_witness :
  (Selector.pickCredentialsS ["passport"; "degree"] 1%positive
     {[ 1%positive := [Example.diploma; Example.passport] ]}).2 !! 1%positive
  = Some [Example.diploma; Example.passport].
Proof.
  apply (pickCredentialsS_caller_unchanged ["passport"; "degree"] 1%positive
           {[ 1%positive := [Example.diploma; Example.passport] ]}
           [Example.diploma; Example.passport]).
  reflexivity.
Defined.

(** ** Creating a presentation *)

Section PresentationFacts.
Import Selector Request Presentation.
Context {CredentialType ClaimType SpecBody Claims PublicKey PrivateKey : Type}.
Context {Program VerificationKey StoredCredential Signature Proof Output : Type}.
Context {Backend : Type}.
Abbreviation Spec' := (Spec CredentialType ClaimType SpecBody).
Abbreviation RunInput' := (RunInput Claims StoredCredential Signature).
Abbreviation ToSign' := (CredentialToSign CredentialType StoredCredential).
Abbreviation World' :=
  (World CredentialType Claims PublicKey StoredCredential Signature Backend).
Variable createProgram : Spec' → Program.
Variable program_compile : Program → Backend → result VerificationKey * Backend.
Variable program_run : Program → RunInput' → Backend → result Proof * Backend.
Variable signCredentials : PrivateKey → Field → list ToSign' → Signature.
Variable publicOutput : Proof → Output.

Abbreviation create :=
  (createPresentation createProgram program_compile program_run signCredentials
     publicOutput).

Implicit Types (request : Request.PresentationRequest Spec' Claims PublicKey Program).
Implicit Types (w : World').

Lemma compile_unfold request w :
  Presentation.compile createProgram program_compile request w
  = match program_compile (programOf createProgram request) (backend w) with
    | (Ok _, b) =>
        (Ok {| programSpec := programSpec request;
               Request.claims := Request.claims request;
               inputContext := inputContext request;
               deriveContext := deriveContext request;
               program := Some (programOf createProgram request) |},
         mkWorld b (steps w))
    | (Err e, b) => (Err e, mkWorld b (steps w))
    end.
Proof.
  unfold Presentation.compile, bind, onBackend, ret.
  by destruct (program_compile _ _) as [[?|?] ?].
Qed.

(** What a successful [createPresentation] has done, step by step, for any
    backend.  The credential inputs of the spec, the list that is signed and
    the input of the run are spelled out from the request. *)
Lemma createPresentation_Ok ownerKey request walletContext credentials w
    presentation w' :
  create ownerKey request walletContext credentials w = (Ok presentation, w') →
  ∃ context vk b credentialsUsed proof,
    let program :=
      match Request.program request with
      | Some p => p
      | None => createProgram (programSpec request)
      end in
    let credentialsNeeded :=
      omap (λ kc : string * Input CredentialType ClaimType,
              match kc.2 with
              | credential credentialType => Some (kc.1, credentialType)
              | claim _ => None
              end) (inputs (programSpec request)) in
    let signed :=
      (λ kc : string * CredentialType,
         mkCredentialToSign (credentialsUsed !! kc.1) kc.2) <$> credentialsNeeded in
    let input :=
      mkRunInput context (Request.claims request)
        (signCredentials ownerKey context signed) credentialsUsed in
    deriveContext request walletContext = Ok context
    ∧ program_compile program (backend w) = (Ok vk, b)
    ∧ pickCredentials (credentialsNeeded.*1) credentials = Ok credentialsUsed
    ∧ (∀ kc, kc ∈ credentialsNeeded →
         ∃ c, credentialsUsed !! kc.1 = Some c ∧ c ∈ credentials)
    ∧ program_run program input b = (Ok proof, backend w')
    ∧ steps w' = steps w ++ [DeriveContext walletContext; Compile;
                             PickCredentials (credentialsNeeded.*1);
                             SignCredentials context signed; Run input]
    ∧ presentation = {| version := "v0";
                        claims := Request.claims request;
                        outputClaim := publicOutput proof;
                        proof := proof |}.
Proof.
  unfold createPresentation, bind, step, lift. simpl.
  destruct (deriveContext request walletContext) as [context|?] eqn:Hctx; [|done].
  rewrite compile_unfold. simpl.
  destruct (program_compile _ _) as [[vk|?] b] eqn:Hcompile; [|done]. simpl.
  destruct (pickCredentials _ _) as [used|?] eqn:Hpick; [|done].
  unfold onBackend, ret. simpl.
  destruct (program_run _ _ _) as [[proof|?] b'] eqn:Hrun; [|done].
  intros [= <- <-]. exists context, vk, b, used, proof. simpl.
  split_and!; try done.
  - intros kc Hkc.
    destruct (pickCredentials_complete _ _ _ kc.1 Hpick) as [c Hc].
    { apply list_elem_of_fmap. by exists kc. }
    exists c. split; [done|]. by eapply pickCredentials_from_pool.
  - unfold push. by rewrite <- !app_assoc.
Qed.

Lemma credentialsNeededOf_NoDup request :
  NoDup (inputs (programSpec request)).*1 → NoDup (credentialsNeededOf request).*1.
Proof.
  unfold credentialsNeededOf. intros Hnd. eapply sublist_NoDup; [exact Hnd|].
  clear Hnd. induction (inputs (programSpec request)) as [|[k input] rest IH]; simpl; [done|].
  destruct input; simpl.
  - by apply sublist_skip.
  - by apply sublist_cons.
Qed.

(** C9.  When the selector cannot bind every needed key, [createPresentation]
    returns no presentation and stops at the selection: the calls it has
    made are at most the context derivation, the compilation and the
    selection, so nothing is signed and the program is not run.  When the
    context derivation and the compilation succeed, the call fails with the
    selector's own error and the backend is left as the compilation left
    it.  That error is the message "Missing credentials: " followed by the
    keys, separated by ", ", that are still bound to no credential, in the
    order the spec lists them (the property names of an object are pairwise
    distinct). *)
Theorem createPresentation_missing_credentials ownerKey request walletContext
    credentials w e :
  let needed := (credentialsNeededOf request).*1 in
  let r := create ownerKey request walletContext credentials w in
  pickCredentials needed credentials = Err e →
  (∃ e', r.1 = Err e')
  ∧ (∃ l, steps r.2 = steps w ++ l
          ∧ l `prefix_of` [DeriveContext walletContext; Compile; PickCredentials needed])
  ∧ (∀ context vk b,
       deriveContext request walletContext = Ok context →
       program_compile (programOf createProgram request) (backend w) = (Ok vk, b) →
       r = (Err e,
            mkWorld b (steps w ++ [DeriveContext walletContext; Compile;
                                   PickCredentials needed])))
  ∧ (NoDup (inputs (programSpec request)).*1 →
     ∃ used stillNeeded,
       pickLoops needed credentials = (used, stillNeeded)
       ∧ stillNeeded ≠ []
       ∧ stillNeeded = filter (λ k, used !! k = None) needed
       ∧ e = AssertionError
               (String.append "Missing credentials: " (join ", " stillNeeded))).
Proof.
  intros needed r Hpick. subst r needed.
  unfold createPresentation, bind, step, lift. simpl.
  rewrite compile_unfold. simpl.
  split_and!.
  - destruct (deriveContext request walletContext); [|by eexists].
    destruct (program_compile _ _) as [[vk|?] b]; simpl; [|by eexists].
    rewrite Hpick. by eexists.
  - destruct (deriveContext request walletContext); simpl.
    + destruct (program_compile _ _) as [[vk|?] b]; simpl.
      * rewrite Hpick. simpl. eexists. unfold push. rewrite <- !app_assoc.
        split; [done|]. done.
      * eexists. unfold push. rewrite <- !app_assoc. split; [done|].
        by exists [PickCredentials (credentialsNeededOf request).*1].
    + eexists. split; [done|]. by eexists.
  - intros context vk b -> ->. simpl. rewrite Hpick. simpl.
    unfold push. by rewrite <- !app_assoc.
  - intros Hnd%credentialsNeededOf_NoDup.
    apply pickCredentials_Err in Hpick as (used & stillNeeded & Hloops & Hne & ->).
    exists used, stillNeeded. split_and!; [done..| |done].
    by eapply pickLoops_unbound.
Qed.

End PresentationFacts.

Section MemoisedCreate.
Import Selector Request Presentation ProgramObject.
Context {CredentialType ClaimType SpecBody Claims PublicKey PrivateKey : Type}.
Context {Program VerificationKey StoredCredential Signature Proof Output : Type}.
Context {Prover : Type} `{Countable Program}.
Abbreviation Spec' := (Spec CredentialType ClaimType SpecBody).
Variable createProgram : Spec' → Program.
Variable compileProgram : Program → Prover → result VerificationKey * Prover.
Variable runProgram :
  Program → RunInput Claims StoredCredential Signature → Prover
  → result Proof * Prover.
Variable signCredentials :
  PrivateKey → Field → list (CredentialToSign CredentialType StoredCredential)
  → Signature.
Variable publicOutput : Proof → Output.

Implicit Types (request : Request.PresentationRequest Spec' Claims PublicKey Program).
Implicit Types
  (w : World CredentialType Claims PublicKey StoredCredential Signature
         (Programs Program VerificationKey Prover)).

(** C6.  A successful [createPresentation], over programs whose [compile] is
    memoised, has made these calls, in this order and with nothing in
    between.  It derived the context from the wallet context.  It compiled
    the request's program, the one attached to the request or else a new
    one: a program that is compiled already is not compiled again and gives
    its cached key, any other is compiled by the backend once and its key
    cached.  It selected, from the credentials it was given, a credential
    for each credential input of the spec, in the order of the inputs.  It
    signed, with the owner key, the context and the list that holds, for
    each credential input in order, the credential selected for its key
    together with the input's credential type.  It ran the program on the
    context, the request's claims, that signature and the selected
    credentials; the run does not change which programs are compiled.  The
    presentation returned has version "v0", the request's claims, the proof
    the run produced and that proof's public output as its output claim. *)
Theorem createPresentation_success ownerKey request walletContext credentials w
    presentation w' :
  createPresentation createProgram (compile compileProgram) (run runProgram)
    signCredentials publicOutput ownerKey request walletContext credentials w
  = (Ok presentation, w') →
  ∃ context vk σ credentialsUsed proof,
    let program :=
      match Request.program request with
      | Some p => p
      | None => createProgram (programSpec request)
      end in
    let credentialsNeeded :=
      omap (λ kc : string * Input CredentialType ClaimType,
              match kc.2 with
              | credential credentialType => Some (kc.1, credentialType)
              | claim _ => None
              end) (inputs (programSpec request)) in
    let signed :=
      (λ kc : string * CredentialType,
         mkCredentialToSign (credentialsUsed !! kc.1) kc.2) <$> credentialsNeeded in
    let ownerSignature := signCredentials ownerKey context signed in
    let input :=
      mkRunInput context (Request.claims request) ownerSignature credentialsUsed in
    deriveContext request walletContext = Ok context
    ∧ compile compileProgram program (backend w) = (Ok vk, σ)
    ∧ compiled σ !! program = Some vk
    ∧ (∀ vk0, compiled (backend w) !! program = Some vk0 →
         vk = vk0 ∧ σ = backend w)
    ∧ (compiled (backend w) !! program = None →
         compileProgram program (prover (backend w)) = (Ok vk, prover σ)
         ∧ compiled σ = <[program := vk]> (compiled (backend w))
         ∧ compilations σ = compilations (backend w) ++ [program])
    ∧ pickCredentials (credentialsNeeded.*1) credentials = Ok credentialsUsed
    ∧ (∀ kc, kc ∈ credentialsNeeded →
         ∃ c, credentialsUsed !! kc.1 = Some c ∧ c ∈ credentials)
    ∧ runProgram program input (prover σ) = (Ok proof, prover (backend w'))
    ∧ compiled (backend w') = compiled σ
    ∧ compilations (backend w') = compilations σ
    ∧ steps w' = steps w ++ [DeriveContext walletContext; Compile;
                             PickCredentials (credentialsNeeded.*1);
                             SignCredentials context signed; Run input]
    ∧ presentation = {| version := "v0";
                        claims := Request.claims request;
                        outputClaim := publicOutput proof;
                        proof := proof |}.
Proof.
  intros (context & vk & σ & used & proof & Hctx & Hcompile & Hpick & Hsel
          & Hrun & Hsteps & Hp)%createPresentation_Ok.
  exists context, vk, σ, used, proof. simpl in *.
  unfold run in Hrun.
  destruct (runProgram _ _ (prover σ)) as [r p] eqn:Hr.
  injection Hrun as -> Hw'. rewrite <- Hw'. simpl.
  split_and!; try done.
  - revert Hcompile. unfold compile.
    destruct (compiled (backend w) !! _) as [vk0|] eqn:Hc.
    + intros [= <- <-]. done.
    + destruct (compileProgram _ _) as [[vk'|?] p']; [|done].
      intros [= <- <-]. simpl. by rewrite lookup_insert_eq.
  - intros vk0 Hvk0. revert Hcompile. unfold compile. rewrite Hvk0.
    by intros [= <- <-].
  - intros Hnone. revert Hcompile. unfold compile. rewrite Hnone.
    destruct (compileProgram _ _) as [[vk'|?] p']; [|done].
    by intros [= <- <-].
Qed.

End MemoisedCreate.

(** ** Request contexts *)

Section RequestFacts.
Import Request.
Context {Spec Claims PublicKey Program : Type}.
Variable Poseidon_hash : list Field → Field.
Variable Poseidon_hashWithPrefix : string → list Field → Field.
Variable claims_toFields : Claims → list Field.
Variable ContextType_toFields : ContextType → list Field.
Variable string_toFields : string → list Field.
Variable PublicKey_toFields : PublicKey → list Field.
Variable prefixes_context : string.

(** C7.  A request built with [noContext] derives the zero field element as
    its context, whatever wallet context it is given, also none. *)
Theorem noContext_deriveContext (programSpec : Spec) (claims : Claims)
    (walletContext : option (WalletContext PublicKey)) :
  deriveContext (noContext (Program := Program) programSpec claims) walletContext
  = Ok (Field_from 0)
  ∧ Field_from 0 = 0%Z.
Proof. split; reflexivity. Qed.

(** C3.  A request built with [withContext] derives, from a wallet context,
    the prefixed hash of the field encodings, in this order, of the type
    tag, the verification-key hash, the client nonce, the server nonce, the
    verifier identity, the action and the hash of the claims, the latter
    being the Poseidon hash of the claims' field encoding: the client nonce
    and the verifier identity come from the wallet context, everything else
    from the request. *)
Theorem withContext_deriveContext (programSpec : Spec) (claims : Claims)
    (contextConfig : ContextConfig) (inputContext : InputContext)
    (walletContext : WalletContext PublicKey) :
  deriveContext
    (withContext (Program := Program) Poseidon_hash Poseidon_hashWithPrefix
       claims_toFields ContextType_toFields string_toFields PublicKey_toFields
       prefixes_context programSpec claims contextConfig inputContext)
    (Some walletContext)
  = Ok (Poseidon_hashWithPrefix prefixes_context
          (ContextType_toFields (type contextConfig)
             ++ [presentationCircuitVKHash contextConfig;
                 clientNonce walletContext;
                 serverNonce inputContext]
             ++ verifierIdentity_toFields string_toFields PublicKey_toFields
                  (verifierIdentity walletContext)
             ++ action_toFields string_toFields (action inputContext)
             ++ [Poseidon_hash (claims_toFields claims)])).
Proof. reflexivity. Qed.

(** The closure built by [withContext] destructures its argument, so it
    throws when no wallet context is passed. *)
Lemma withContext_deriveContext_undefined (programSpec : Spec) (claims : Claims)
    (contextConfig : ContextConfig) (inputContext : InputContext) :
  is_Ok (deriveContext
           (withContext (Program := Program) (PublicKey := PublicKey)
              Poseidon_hash Poseidon_hashWithPrefix
              claims_toFields ContextType_toFields string_toFields PublicKey_toFields
              prefixes_context programSpec claims contextConfig inputContext)
           None) = false.
Proof. reflexivity. Qed.

End RequestFacts.

(** ** Recursive credentials *)

Section RecursiveFacts.
Import Recursive.
Context {PublicInput Data DataType PublicKey ProofBytes Cache Backend : Type}.
Abbreviation Proof' := (DynamicProof PublicInput Data PublicKey ProofBytes).
Abbreviation Witness' := (Witness PublicInput Data PublicKey ProofBytes).
Variable verifyProof : Proof' → VerificationKey → bool.
Variable verifyResult : Proof' → VerificationKey → bool.
Variable Poseidon_hash : list Field → Field.
Variable Poseidon_hashWithPrefix : string → list Field → Field.
Variable hashCredentialInCircuit : DataType → Credential Data PublicKey → CredentialHash.
Variable credentialHash : Credential Data PublicKey → Field.
Variable prefixes_issuerRecursive : string.

Abbreviation RecursiveSpec :=
  (Recursive verifyProof verifyResult Poseidon_hash Poseidon_hashWithPrefix
     hashCredentialInCircuit prefixes_issuerRecursive).
Abbreviation GenericSpec :=
  (genericRecursive verifyProof verifyResult Poseidon_hash Poseidon_hashWithPrefix
     credentialHash prefixes_issuerRecursive).

Implicit Types (w : Witness') (credHash : CredentialHash).

Lemma Field_assertEquals_Ok (x y : Field) message :
  Field_assertEquals x y message = Ok tt ↔ x = y.
Proof.
  unfold Field_assertEquals. case_bool_decide; split; done.
Qed.

(** Both ways of checking a witness come to the same two conditions. *)
Lemma verify_Ok_gen (recomputed : Field) w credHash :
  (try_ DynamicProof_verify verifyProof (proof w) (vk w);
   Field_assertEquals recomputed (ch_hash credHash) "Invalid proof output") = Ok tt
  ↔ verifyProof (proof w) (vk w) = true ∧ recomputed = ch_hash credHash.
Proof.
  unfold DynamicProof_verify. destruct (verifyProof _ _); simpl.
  - rewrite Field_assertEquals_Ok. split; [by intros ->|by intros [_ ?]].
  - split; [done|by intros [? _]].
Qed.




(** C5.  [verify] succeeds exactly when the inner proof is valid for the
    supplied verification key and the recomputed hash of the proof's public
    output is the expected credential hash.  When the two hashes differ it
    throws: "Invalid proof output" for a valid proof, and the rejection of
    the proof itself otherwise. *)
Theorem verify_checks_proof_and_output (Proof : ProofClass PublicInput)
    (dataType : DataType) w credHash :
  let recomputed :=
    ch_hash (hashCredentialInCircuit dataType (publicOutput (proof w))) in
  let recomputedGeneric := credentialHash (publicOutput (proof w)) in
  (verify (RecursiveSpec Proof dataType) w credHash = Ok tt
   ↔ verifyProof (proof w) (vk w) = true ∧ recomputed = ch_hash credHash)
  ∧ (recomputed ≠ ch_hash credHash →
     verify (RecursiveSpec Proof dataType) w credHash
     = Err (if verifyProof (proof w) (vk w)
            then AssertionError "Invalid proof output" else ProofRejected))
  ∧ (verify GenericSpec w credHash = Ok tt
     ↔ verifyProof (proof w) (vk w) = true ∧ recomputedGeneric = ch_hash credHash)
  ∧ (recomputedGeneric ≠ ch_hash credHash →
     verify GenericSpec w credHash
     = Err (if verifyProof (proof w) (vk w)
            then AssertionError "Invalid proof output" else ProofRejected)).
Proof.
  intros recomputed recomputedGeneric. split_and!; simpl.
  - apply verify_Ok_gen.
  - intros Hne. unfold DynamicProof_verify, Field_assertEquals.
    destruct (verifyProof _ _); simpl; [|done]. by rewrite bool_decide_eq_false_2.
  - apply verify_Ok_gen.
  - intros Hne. unfold DynamicProof_verify, Field_assertEquals.
    destruct (verifyProof _ _); simpl; [|done]. by rewrite bool_decide_eq_false_2.
Qed.

(** C8.  [issuer] is the hash, under the issuer-recursive prefix, of the
    verification key's hash and the Poseidon hash of the field encoding of
    the inner proof's public input.  A spec made by [Recursive] encodes the
    public input with the proof class it was made for, the generic spec with
    the class of the proof at hand. *)
Theorem issuer_is_prefixed_hash (Proof : ProofClass PublicInput)
    (dataType : DataType) w :
  issuer (RecursiveSpec Proof dataType) w
  = Poseidon_hashWithPrefix prefixes_issuerRecursive
      [hash (vk w);
       Poseidon_hash (publicInputType_toFields Proof (publicInput (proof w)))]
  ∧ issuer GenericSpec w
    = Poseidon_hashWithPrefix prefixes_issuerRecursive
        [hash (vk w);
         Poseidon_hash
           (publicInputType_toFields (constructor (proof w)) (publicInput (proof w)))].
Proof. split; reflexivity. Qed.

(** For a proof that is an instance of the class the spec was made for, the
    two issuers are the same. *)
Lemma issuer_generic_agrees (Proof : ProofClass PublicInput) (dataType : DataType) w :
  constructor (proof w) = Proof →
  issuer (RecursiveSpec Proof dataType) w = issuer GenericSpec w.
Proof. intros <-. reflexivity. Qed.

End RecursiveFacts.

(** ** The memoised compilation of a recursive credential's program *)

Section CompileFacts.
Import Recursive.
Context {Cache Backend : Type}.
Variable program_compile :
  option (CompileOptions Cache) → Backend → result VerificationKey * Backend.
Implicit Types (s : ProgramState Cache Backend).
Implicit Types (options : option (CompileOptions Cache)).

(** C2 (as amended).  Once [compile] has returned a verification key, every
    later call returns that same key and changes nothing, whatever options
    it is given: the backend is not called again, also not when a forced
    recompilation is asked for.  The options, and with them a forced
    recompilation, reach the backend only on a call made while nothing has
    been compiled successfully; that call compiles once and stores the
    key. *)
Theorem compile_memoised options s v s1 :
  compile program_compile options s = (Ok v, s1) →
  (∀ options', compile program_compile options' s1 = (Ok v, s1))
  ∧ (isCompiled s = true → s1 = s)
  ∧ (isCompiled s = false →
     ∃ verificationKey b,
       program_compile options (backend s) = (Ok verificationKey, b)
       ∧ v = Some verificationKey
       ∧ s1 = mkProgramState true (Some verificationKey) b
                (compilations s ++ [options])).
Proof.
  unfold compile. destruct (isCompiled s) eqn:Hs.
  - intros [= <- <-]. rewrite Hs. split_and!; done.
  - destruct (program_compile options (backend s)) as [[verificationKey|e] b] eqn:Hc;
      [|done].
    intros [= <- <-]. simpl. split_and!; [done..|].
    intros _. by exists verificationKey, b.
Qed.

(** A failed compilation is not remembered: the next call compiles again. *)
Lemma compile_failure_not_cached options s e s1 :
  compile program_compile options s = (Err e, s1) →
  isCompiled s1 = false ∧ cached_vk s1 = cached_vk s
  ∧ compilations s1 = compilations s ++ [options].
Proof.
  unfold compile. destruct (isCompiled s) eqn:Hs; [done|].
  destruct (program_compile options (backend s)) as [[verificationKey|e'] b]; [done|].
  by intros [= <- <-].
Qed.

End CompileFacts.

(** Counterexample to C2 as stated: after a first [compile], a call that asks
    for a forced recompilation returns the cached key and does not reach the
    backend. *)
Lemma compile_ignores_forceRecompile :
  ¬ Recursive.forcedRecompileRuns Example.program_compile.
Proof.
  intros H.
  specialize (H (Recursive.compile Example.program_compile None
                   (Recursive.initialState 0)).2 Example.force eq_refl eq_refl).
  discriminate H.
Qed.

Lemma compile_memoised_witness :
  Recursive.compile Example.program_compile (Some Example.force)
    (Recursive.mkProgramState true (Some Example.vkey) 1 [None])
  = (Ok (Some Example.vkey),
     Recursive.mkProgramState true (Some Example.vkey) 1 [None]).
Proof.
  apply (compile_memoised Example.program_compile None (Recursive.initialState 0)
           (Some Example.vkey)
           (Recursive.mkProgramState true (Some Example.vkey) 1 [None])).
  reflexivity.
Defined.

(** ** The theorems at concrete inputs *)

Lemma verify_checks_proof_and_output_witness :
  Recursive.verify Example.recursiveSpec Example.witness (Recursive.mkCredentialHash 0%Z)
  = Err (AssertionError "Invalid proof output").
Proof.
  apply (proj1 (proj2 (verify_checks_proof_and_output Example.verifyProof Example.verifyProof
                         Example.Poseidon_hash Example.Poseidon_hashWithPrefix
                         Example.hashCredentialInCircuit Example.credentialHash
                         "issuer-recursive" Example.InputProof tt Example.witness
                         (Recursive.mkCredentialHash 0%Z)))).
  vm_compute. discriminate.
Defined.


Lemma createPresentation_success_witness :
  ∃ presentation,
    (ExampleStore.create 5%Z Example.request None [Example.diploma]
       ExampleStore.world).1
    = Ok presentation
    ∧ Presentation.version presentation = "v0"
    ∧ Presentation.outputClaim presentation = 77%Z.
Proof.
  let outcome := eval vm_compute in
    (ExampleStore.create 5%Z Example.request None [Example.diploma]
       ExampleStore.world) in
  lazymatch outcome with
  | (Ok ?presentation, ?w') =>
      exists presentation;
      destruct (createPresentation_success Example.createProgram
                  Example.compileProgram Example.run Example.signCredentials
                  Example.publicOutput 5%Z Example.request None [Example.diploma]
                  ExampleStore.world presentation w' eq_refl)
        as (context & vk & σ & used & proof & _)
  end.
  split_and!; reflexivity.
Defined.

(** Two presentations in a row for a request that carries its program: the
    program is compiled once. *)
Example create_twice_compiles_once :
  ProgramObject.compilations
    (Presentation.backend
       (ExampleStore.create 5%Z ExampleProgram.compiledRequest None
          [Example.diploma]
          (ExampleStore.create 5%Z ExampleProgram.compiledRequest None
             [Example.diploma] ExampleStore.world).2).2)
  = ["compiled program"].
Proof. reflexivity. Qed.

Lemma createPresentation_missing_credentials_witness :
  ∃ e, (Example.create 5%Z Example.request None [] Example.world).1 = Err e.
Proof.
  apply (createPresentation_missing_credentials Example.createProgram
           Example.compileProgram Example.run Example.signCredentials
           Example.publicOutput 5%Z Example.request None [] Example.world
           (AssertionError "Missing credentials: signedData")).
  reflexivity.
Defined.

(** * Further properties *)

(** ** The selector: when it succeeds and what it returns *)

Section SelectorMore.
Import Selector.
Context {StoredCredential : Type}.
Implicit Types (st : PickState StoredCredential).
Implicit Types (pool remaining : list (Tagged StoredCredential)).
Implicit Types (used : gmap string (Tagged StoredCredential)) (k : string).

(** Every key of the first loop either takes one credential out of the pool
    or joins the keys still needed. *)
Lemma tagPass_length needed st :
  length (credentialsStillNeeded (tagPass needed st)) + length (credentials st)
  = length (credentialsStillNeeded st) + length needed
    + length (credentials (tagPass needed st)).
Proof.
  revert st. induction needed as [|k0 rest IH]; intros st; simpl; [lia|].
  pose proof (IH (tagStep st k0)) as Hrest.
  destruct (tagStep_cases st k0) as [(_ & _ & Heq)|(i & c0 & _ & Hc0 & _ & Heq)];
    rewrite Heq in Hrest at 2 3; simpl in Hrest.
  - rewrite length_app in Hrest. simpl in Hrest. lia.
  - unfold splice1 in Hrest. rewrite length_delete in Hrest by (by eexists).
    apply lookup_lt_Some in Hc0. lia.
Qed.

Lemma orderPass_length remaining used stillNeeded :
  length (orderPass remaining used stillNeeded).2
  = length stillNeeded - length remaining.
Proof.
  revert used stillNeeded.
  induction remaining as [|c0 rest IH]; intros used stillNeeded; simpl; [lia|].
  destruct stillNeeded as [|k0 s]; simpl; [done|]. by rewrite IH.
Qed.

Lemma pickLoops_length needed pool :
  length (pickLoops needed pool).2 = length needed - length pool.
Proof.
  unfold pickLoops. rewrite orderPass_length.
  pose proof (tagPass_length needed (mkPick ∅ [] pool)) as H. simpl in H. lia.
Qed.

(** X1.  The selection succeeds exactly when the pool holds at least as many
    credentials as there are needed keys: tags decide which credential goes
    where, never whether the selection succeeds. *)
Theorem pickCredentials_succeeds_iff (needed : list string) pool :
  (∃ used, pickCredentials needed pool = Ok used)
  ↔ (length needed ≤ length pool)%nat.
Proof.
  pose proof (pickLoops_length needed pool) as Hlen.
  split.
  - intros [used Hrun%pickCredentials_Ok]. rewrite Hrun in Hlen. simpl in Hlen. lia.
  - intros Hle. destruct (pickLoops needed pool) as [used stillNeeded] eqn:Hrun.
    exists used. apply pickCredentials_Ok. rewrite Hrun. f_equal.
    simpl in Hlen. apply nil_length_inv. lia.
Qed.

Lemma tagPass_stillNeeded_sublist needed st :
  ∃ l, credentialsStillNeeded (tagPass needed st) = credentialsStillNeeded st ++ l
       ∧ l `sublist_of` needed.
Proof.
  revert st. induction needed as [|k0 rest IH]; intros st; simpl.
  - exists []. by rewrite app_nil_r.
  - destruct (IH (tagStep st k0)) as (l & -> & Hl).
    destruct (tagStep_cases st k0) as [(_ & _ & ->)|(i & c0 & _ & _ & _ & ->)]; simpl.
    + exists (k0 :: l). unfold push. rewrite <- app_assoc. split; [done|].
      by apply sublist_skip.
    + exists l. split; [done|]. by apply sublist_cons.
Qed.

Lemma orderPass_stillNeeded_suffix remaining used stillNeeded :
  (orderPass remaining used stillNeeded).2 `suffix_of` stillNeeded.
Proof.
  revert used stillNeeded.
  induction remaining as [|c0 rest IH]; intros used stillNeeded; simpl; [done|].
  destruct stillNeeded as [|k0 s]; simpl; [done|].
  by apply suffix_cons_r.
Qed.

(** X2.  When the selection fails, the error names keys that were asked for,
    in the order they were asked for, and it names as many keys as the pool
    is short of credentials. *)
Theorem pickCredentials_failure (needed : list string) pool e :
  pickCredentials needed pool = Err e →
  ∃ missing,
    e = AssertionError (String.append "Missing credentials: " (join ", " missing))
    ∧ missing `sublist_of` needed
    ∧ (length pool < length needed)%nat
    ∧ length missing = length needed - length pool.
Proof.
  intros (used & missing & Hrun & Hne & ->)%pickCredentials_Err.
  pose proof (pickLoops_length needed pool) as Hlen. rewrite Hrun in Hlen.
  simpl in Hlen. exists missing. split_and!; [done| | |done].
  - unfold pickLoops in Hrun.
    pose proof (orderPass_stillNeeded_suffix
                  (credentials (tagPass needed (mkPick ∅ [] pool)))
                  (credentialsUsed (tagPass needed (mkPick ∅ [] pool)))
                  (credentialsStillNeeded (tagPass needed (mkPick ∅ [] pool))))
      as Hsuffix.
    rewrite Hrun in Hsuffix. simpl in Hsuffix.
    destruct (tagPass_stillNeeded_sublist needed (mkPick ∅ [] pool)) as (l & Hl & Hsub).
    simpl in Hl. rewrite Hl in Hsuffix. destruct Hsuffix as [pre Hpre].
    etransitivity; [|exact Hsub]. rewrite Hpre. by apply sublist_inserts_l.
  - destruct missing; [done|]. simpl in Hlen. lia.
Qed.

(** X3.  A successful selection returns an object whose own keys are exactly
    the needed keys, provided none of them is ["__proto__"]: an assignment to
    that property name sets the prototype of the object and adds no key, so
    the dictionary stands for the object only when it is not asked for. *)
Theorem pickCredentials_dom (needed : list string) pool used :
  "__proto__" ∉ needed →
  pickCredentials needed pool = Ok used →
  dom used = list_to_set needed.
Proof.
  intros _ Hrun. apply set_eq. intros k.
  rewrite elem_of_dom, elem_of_list_to_set. split.
  - intros [c Hc]. apply pickCredentials_Ok in Hrun. unfold pickLoops in Hrun.
    destruct (orderPass_bindings _ _ _ _ _ _ _ Hrun Hc) as [H|[Hin _]].
    + destruct (tagPass_keys needed (mkPick ∅ [] pool) k) as [[? H']|?]; [by eexists| |done].
      simpl in H'. by rewrite lookup_empty in H'.
    + destruct (tagPass_stillNeeded_sublist needed (mkPick ∅ [] pool)) as (l & Hl & Hsub).
      simpl in Hl. rewrite Hl in Hin. by eapply elem_of_sublist.
  - by eapply pickCredentials_complete.
Qed.

(** Binding a key to a credential adds that credential to the credentials
    in use and, at most, drops the one the key was bound to before. *)
Lemma insert_values_submseteq used k (c : Tagged StoredCredential) :
  (map_to_list (<[k := c]> used)).*2 ⊆+ c :: (map_to_list used).*2.
Proof.
  rewrite <- insert_delete_eq.
  rewrite map_to_list_insert by apply lookup_delete_eq. simpl.
  apply submseteq_skip.
  destruct (used !! k) as [c'|] eqn:Hk.
  - rewrite <- (map_to_list_delete used k c') by done. simpl.
    by apply submseteq_cons.
  - by rewrite delete_id.
Qed.

Lemma tagPass_values needed st :
  (map_to_list (credentialsUsed (tagPass needed st))).*2
    ++ credentials (tagPass needed st)
  ⊆+ (map_to_list (credentialsUsed st)).*2 ++ credentials st.
Proof.
  revert st. induction needed as [|k0 rest IH]; intros st; simpl; [done|].
  etransitivity; [apply IH|].
  destruct (tagStep_cases st k0) as [(_ & _ & ->)|(i & c0 & _ & Hc0 & _ & ->)]; simpl;
    [done|].
  rewrite (delete_Permutation (credentials st) i c0 Hc0) at 2.
  rewrite <- Permutation_middle. unfold splice1.
  change (c0 :: (map_to_list (credentialsUsed st)).*2 ++ delete i (credentials st))
    with ((c0 :: (map_to_list (credentialsUsed st)).*2) ++ delete i (credentials st)).
  apply submseteq_app; [apply insert_values_submseteq|done].
Qed.

Lemma orderPass_values remaining used stillNeeded :
  (map_to_list (orderPass remaining used stillNeeded).1).*2
  ⊆+ (map_to_list used).*2 ++ remaining.
Proof.
  revert used stillNeeded.
  induction remaining as [|c0 rest IH]; intros used stillNeeded; simpl.
  - by rewrite app_nil_r.
  - destruct stillNeeded as [|k0 s]; simpl.
    + by apply submseteq_inserts_r.
    + etransitivity; [apply IH|]. rewrite <- Permutation_middle.
      change (c0 :: (map_to_list used).*2 ++ rest)
        with ((c0 :: (map_to_list used).*2) ++ rest).
      apply submseteq_app; [apply insert_values_submseteq|done].
Qed.

(** X4.  No stored credential is handed out twice: the credentials of the
    returned assignment, counted with multiplicity, are part of the pool. *)
Theorem pickCredentials_no_reuse (needed : list string) pool used :
  pickCredentials needed pool = Ok used →
  (map_to_list used).*2 ⊆+ pool.
Proof.
  intros Hrun%pickCredentials_Ok. unfold pickLoops in Hrun.
  pose proof (orderPass_values
                (credentials (tagPass needed (mkPick ∅ [] pool)))
                (credentialsUsed (tagPass needed (mkPick ∅ [] pool)))
                (credentialsStillNeeded (tagPass needed (mkPick ∅ [] pool)))) as H2.
  rewrite Hrun in H2. simpl in H2.
  etransitivity; [exact H2|].
  etransitivity; [apply tagPass_values|]. simpl.
  by rewrite map_to_list_empty.
Qed.

Lemma tagPass_untagged needed st :
  (∀ c, c ∈ credentials st → key c = None) →
  tagPass needed st
  = mkPick (credentialsUsed st) (credentialsStillNeeded st ++ needed) (credentials st).
Proof.
  revert st. induction needed as [|k0 rest IH]; intros st Hnone; simpl.
  - rewrite app_nil_r. by destruct st.
  - destruct (tagStep_cases st k0) as [(_ & _ & ->)|(i & c0 & _ & Hc0 & Hkey & _)].
    + rewrite IH by done. simpl. unfold push. by rewrite <- app_assoc.
    + apply list_elem_of_lookup_2 in Hc0. rewrite (Hnone _ Hc0) in Hkey. done.
Qed.

(** X5.  With a pool in which no credential carries a key, selection is
    positional: the [j]-th needed key gets the [j]-th credential of the
    pool. *)
Theorem pickCredentials_untagged (needed : list string) pool :
  (∀ c, c ∈ pool → key c = None) →
  NoDup needed →
  (length needed ≤ length pool)%nat →
  ∃ used, pickCredentials needed pool = Ok used
          ∧ ∀ j k, needed !! j = Some k → used !! k = pool !! j.
Proof.
  intros Hnone Hnd Hlen.
  pose proof (pickLoops_length needed pool) as Hl.
  destruct (pickLoops needed pool) as [used stillNeeded] eqn:Hrun. simpl in Hl.
  assert (stillNeeded = []) as -> by (apply nil_length_inv; lia).
  exists used. split; [apply pickCredentials_Ok; by rewrite Hrun|].
  unfold pickLoops in Hrun. rewrite tagPass_untagged in Hrun by done. simpl in Hrun.
  intros j k Hj. by eapply orderPass_first_fit.
Qed.

Lemma orderPass_nil remaining used :
  orderPass remaining used [] = (used, []).
Proof. by destruct remaining. Qed.

(** What the selector returns when every needed key is the tag of exactly
    one credential of the pool. *)
Lemma pickCredentials_tagged needed pool :
  NoDup needed →
  (∀ k, k ∈ needed → ∃ c, filter (λ c, key c = Some k) pool = [c]) →
  ∃ used, pickCredentials needed pool = Ok used
          ∧ ∀ k, used !! k
                 = if decide (k ∈ needed)
                   then head (filter (λ c, key c = Some k) pool) else None.
Proof.
  intros Hnd Hone. set (st := tagPass needed (mkPick ∅ [] pool)).
  assert (credentialsStillNeeded st = []) as Hstill.
  { destruct (credentialsStillNeeded st) as [|k l] eqn:Hs; [done|].
    assert (k ∈ credentialsStillNeeded st) as Hk by (rewrite Hs; by left).
    apply (tagPass_stillNeeded _ _ _ Hnd) in Hk as [Hk|[Hk Hnone]].
    - by apply elem_of_nil in Hk.
    - destruct (Hone k Hk) as [c Hc].
      assert (c ∈ filter (λ c, key c = Some k) pool) as Hin by (rewrite Hc; by left).
      apply list_elem_of_filter in Hin as [Hkey Hin]. by destruct (Hnone c Hin). }
  exists (credentialsUsed st). split.
  - apply pickCredentials_Ok. unfold pickLoops. fold st.
    by rewrite Hstill, orderPass_nil.
  - intros k. case_decide as Hk.
    + by apply tagPass_first_fit.
    + destruct (tagPass_unbound needed (mkPick ∅ [] pool) Hnd) as [_ Hother]; [done|].
      subst st. by rewrite (Hother k Hk).
Qed.

(** X6.  When every needed key is the tag of exactly one credential of the
    pool, the order of the pool does not matter: every arrangement of the
    same credentials yields the same assignment, each key bound to the
    credential that carries it. *)
Theorem pickCredentials_pool_order (needed : list string) pool pool' :
  NoDup needed →
  (∀ k, k ∈ needed → ∃ c, filter (λ c, key c = Some k) pool = [c]) →
  pool' ≡ₚ pool →
  pickCredentials needed pool' = pickCredentials needed pool
  ∧ ∃ used, pickCredentials needed pool = Ok used
            ∧ ∀ k, k ∈ needed → ∃ c, used !! k = Some c ∧ key c = Some k.
Proof.
  intros Hnd Hone Hperm.
  assert (Hsame : ∀ k, filter (λ c, key c = Some k) pool = [] ∨ 
                       (∃ c, filter (λ c, key c = Some k) pool = [c]) →
                  filter (λ c, key c = Some k) pool'
                  = filter (λ c, key c = Some k) pool).
  { intros k [H|[c H]]; rewrite H.
    - apply Permutation_nil_r. by rewrite Hperm, H.
    - apply Permutation_singleton_r. by rewrite Hperm, H. }
  assert (Hone' : ∀ k, k ∈ needed → ∃ c, filter (λ c, key c = Some k) pool' = [c]).
  { intros k Hk. destruct (Hone k Hk) as [c Hc]. exists c.
    rewrite Hsame; eauto. }
  destruct (pickCredentials_tagged needed pool Hnd Hone) as (used & Hrun & Hused).
  destruct (pickCredentials_tagged needed pool' Hnd Hone') as (used' & Hrun' & Hused').
  split.
  - rewrite Hrun, Hrun'. f_equal. apply map_eq. intros k.
    rewrite Hused, Hused'. case_decide as Hk; [|done].
    rewrite Hsame; eauto.
  - exists used. split; [done|]. intros k Hk. rewrite Hused.
    rewrite decide_True by done. destruct (Hone k Hk) as [c Hc]. rewrite Hc.
    exists c. split; [done|].
    assert (c ∈ filter (λ c, key c = Some k) pool) as Hin by (rewrite Hc; by left).
    by apply list_elem_of_filter in Hin as [? _].
Qed.

End SelectorMore.

(** ** Creating a presentation: failures and what the result depends on *)

Section PresentationMore.
Import Selector Request Presentation.
Context {CredentialType ClaimType SpecBody Claims PublicKey PrivateKey : Type}.
Context {Program VerificationKey StoredCredential Signature Proof Output : Type}.
Context {Backend : Type}.
Abbreviation Spec' := (Spec CredentialType ClaimType SpecBody).
Variable createProgram : Spec' → Program.
Variable program_compile : Program → Backend → result VerificationKey * Backend.
Variable program_run :
  Program → RunInput Claims StoredCredential Signature → Backend
  → result Proof * Backend.
Variable signCredentials :
  PrivateKey → Field → list (CredentialToSign CredentialType StoredCredential)
  → Signature.
Variable publicOutput : Proof → Output.

Implicit Types (request : Request.PresentationRequest Spec' Claims PublicKey Program).
Implicit Types
  (w : World CredentialType Claims PublicKey StoredCredential Signature Backend).

Lemma createPresentation_deriveContext_Err ownerKey request walletContext
    credentials w e :
  deriveContext request walletContext = Err e →
  createPresentation createProgram program_compile program_run signCredentials
    publicOutput ownerKey request walletContext credentials w
  = (Err e, mkWorld (backend w) (steps w ++ [DeriveContext walletContext])).
Proof.
  intros Hctx. unfold createPresentation, bind, step, lift. simpl. by rewrite Hctx.
Qed.

(** X7.  When the compilation of the program throws, [createPresentation]
    throws the same exception and stops there: no credential is selected,
    nothing is signed, the program is not run, and this also when
    credentials are missing. *)
Theorem createPresentation_compile_throws ownerKey request walletContext
    credentials w context e b :
  deriveContext request walletContext = Ok context →
  program_compile (programOf createProgram request) (backend w) = (Err e, b) →
  createPresentation createProgram program_compile program_run signCredentials
    publicOutput ownerKey request walletContext credentials w
  = (Err e, mkWorld b (steps w ++ [DeriveContext walletContext; Compile])).
Proof.
  intros Hctx Hcompile. unfold createPresentation, bind, step, lift. simpl.
  rewrite Hctx, compile_unfold. simpl. rewrite Hcompile. simpl.
  unfold push. by rewrite <- app_assoc.
Qed.

(** X8.  When the run of the program throws, after the context was derived,
    the program compiled and the credentials selected and signed,
    [createPresentation] throws the same exception and returns no
    presentation. *)
Theorem createPresentation_run_throws ownerKey request walletContext credentials
    w context vk b used e b' :
  let needed := credentialsNeededOf request in
  let signed := toSign needed used in
  let input :=
    mkRunInput context (Request.claims request)
      (signCredentials ownerKey context signed) used in
  deriveContext request walletContext = Ok context →
  program_compile (programOf createProgram request) (backend w) = (Ok vk, b) →
  pickCredentials (needed.*1) credentials = Ok used →
  program_run (programOf createProgram request) input b = (Err e, b') →
  createPresentation createProgram program_compile program_run signCredentials
    publicOutput ownerKey request walletContext credentials w
  = (Err e,
     mkWorld b' (steps w ++ [DeriveContext walletContext; Compile;
                             PickCredentials (needed.*1);
                             SignCredentials context signed; Run input])).
Proof.
  intros needed signed input Hctx Hcompile Hpick Hrun.
  unfold createPresentation, bind, step, lift. simpl.
  rewrite Hctx, compile_unfold. simpl. rewrite Hcompile. simpl.
  fold needed. rewrite Hpick. unfold onBackend. simpl.
  fold signed. fold input. rewrite Hrun. simpl.
  unfold push. by rewrite <- !app_assoc.
Qed.

(** X9.  A request that carries a program, as every request returned by
    [Presentation.compile] does, is presented with that program:
    [createProgram] plays no part in the outcome. *)
Theorem createPresentation_uses_attached_program
    (createProgram' : Spec' → Program) ownerKey request walletContext credentials
    w program :
  Request.program request = Some program →
  createPresentation createProgram program_compile program_run signCredentials
    publicOutput ownerKey request walletContext credentials w
  = createPresentation createProgram' program_compile program_run signCredentials
      publicOutput ownerKey request walletContext credentials w.
Proof.
  intros Hprogram. unfold createPresentation, bind, step, lift. simpl.
  rewrite !compile_unfold. unfold programOf. by rewrite Hprogram.
Qed.

(** What [Presentation.compile] returns: the request with its program
    attached and nothing else changed; compiling it again compiles the same
    program. *)
Lemma compile_attaches_program (createProgram' : Spec' → Program) request w r w' :
  Presentation.compile createProgram program_compile request w = (Ok r, w') →
  Request.program r = Some (programOf createProgram request)
  ∧ programOf createProgram' r = programOf createProgram request
  ∧ programSpec r = programSpec request
  ∧ Request.claims r = Request.claims request
  ∧ deriveContext r = deriveContext request
  ∧ steps w' = steps w.
Proof.
  rewrite compile_unfold.
  destruct (program_compile _ _) as [[vk|?] b]; [|done].
  by intros [= <- <-].
Qed.

(** X10.  A request without context is presented the same way whatever the
    wallet context is: the presentation (or the error) and the state of the
    backend do not depend on it. *)
Theorem createPresentation_noContext_ignores_wallet ownerKey
    (programSpec : Spec') (claims : Claims) walletContext walletContext'
    credentials w :
  let create := createPresentation createProgram program_compile program_run
                  signCredentials publicOutput ownerKey
                  (noContext programSpec claims) in
  (create walletContext credentials w).1 = (create walletContext' credentials w).1
  ∧ backend (create walletContext credentials w).2
    = backend (create walletContext' credentials w).2.
Proof.
  unfold createPresentation, bind, step, lift. simpl.
  rewrite !compile_unfold. simpl.
  destruct (program_compile _ _) as [[vk|?] b]; simpl; [|done].
  destruct (pickCredentials _ _) as [used|?]; simpl; [|done].
  unfold onBackend. simpl.
  by destruct (program_run _ _ _) as [[proof|?] b'].
Qed.

End PresentationMore.

Section ContextfulCreate.
Import Selector Request Presentation.
Context {CredentialType ClaimType SpecBody Claims PublicKey PrivateKey : Type}.
Context {Program VerificationKey StoredCredential Signature Proof Output : Type}.
Context {Backend : Type}.
Abbreviation Spec' := (Spec CredentialType ClaimType SpecBody).

(** X11.  A request built with [withContext] cannot be presented without a
    wallet context: [createPresentation] throws when it derives the context,
    before anything is compiled, selected, signed or run. *)
Theorem createPresentation_withContext_undefined
    Poseidon_hash Poseidon_hashWithPrefix (claims_toFields : Claims → list Field)
    ContextType_toFields string_toFields (PublicKey_toFields : PublicKey → list Field)
    prefixes_context
    (createProgram : Spec' → Program)
    (program_compile : Program → Backend → result VerificationKey * Backend)
    (program_run :
       Program → RunInput Claims StoredCredential Signature → Backend
       → result Proof * Backend)
    (signCredentials :
       PrivateKey → Field → list (CredentialToSign CredentialType StoredCredential)
       → Signature)
    (publicOutput : Proof → Output)
    ownerKey (programSpec : Spec') claims contextConfig inputContext credentials
    (w : World CredentialType Claims PublicKey StoredCredential Signature Backend) :
  ∃ message,
    createPresentation createProgram program_compile program_run signCredentials
      publicOutput ownerKey
      (withContext Poseidon_hash Poseidon_hashWithPrefix claims_toFields
         ContextType_toFields string_toFields PublicKey_toFields prefixes_context
         programSpec claims contextConfig inputContext)
      None credentials w
    = (Err (TypeError message),
       mkWorld (backend w) (steps w ++ [DeriveContext None])).
Proof.
  eexists. by apply createPresentation_deriveContext_Err.
Qed.

End ContextfulCreate.

(** ** Recursive credentials: errors outside the circuit *)

Section RecursiveMore.
Import Recursive.
Context {PublicInput Data DataType PublicKey ProofBytes : Type}.
Variable verifyProof :
  DynamicProof PublicInput Data PublicKey ProofBytes → VerificationKey → bool.
Variable verifyResult :
  DynamicProof PublicInput Data PublicKey ProofBytes → VerificationKey → bool.
Variable Poseidon_hash : list Field → Field.
Variable Poseidon_hashWithPrefix : string → list Field → Field.
Variable hashCredentialInCircuit : DataType → Credential Data PublicKey → CredentialHash.
Variable credentialHash : Credential Data PublicKey → Field.
Variable prefixes_issuerRecursive : string.

Implicit Types (w : Witness PublicInput Data PublicKey ProofBytes).

(** X12.  Outside the circuit the proof is checked before its output: an
    invalid proof is reported as "Invalid proof" whatever the hashes are, and
    "Invalid proof output" is reported only for a valid proof whose output
    hash is not the expected one. *)
Theorem verifyOutsideCircuit_outcome (Proof : ProofClass PublicInput)
    (dataType : DataType) w (credHash : CredentialHash) :
  verifyOutsideCircuit
    (Recursive verifyProof verifyResult Poseidon_hash Poseidon_hashWithPrefix
       hashCredentialInCircuit prefixes_issuerRecursive Proof dataType) w credHash
  = (if verifyResult (proof w) (vk w)
     then if bool_decide
               (ch_hash (hashCredentialInCircuit dataType (publicOutput (proof w)))
                = ch_hash credHash)
          then Ok tt
          else Err (AssertionError "Invalid proof output")
     else Err (AssertionError "Invalid proof"))
  ∧ verifyOutsideCircuit
      (genericRecursive verifyProof verifyResult Poseidon_hash Poseidon_hashWithPrefix
         credentialHash prefixes_issuerRecursive) w credHash
    = (if verifyResult (proof w) (vk w)
       then if bool_decide (credentialHash (publicOutput (proof w)) = ch_hash credHash)
            then Ok tt
            else Err (AssertionError "Invalid proof output")
       else Err (AssertionError "Invalid proof")).
Proof.
  split; simpl; unfold o1js_verify, Field_assertEquals; simpl;
    by destruct (verifyResult _ _).
Qed.

End RecursiveMore.

(** ** Recursive credentials made from a program *)

Section FromProgramFacts.
Import Recursive FromProgram.
Context {PublicInput Data DataType PublicKey ProofBytes Cache Backend : Type}.
Context {AllInputs : Type}.
Variable verifyProof :
  DynamicProof PublicInput Data PublicKey ProofBytes → VerificationKey → bool.
Variable verifyResult :
  DynamicProof PublicInput Data PublicKey ProofBytes → VerificationKey → bool.
Variable Poseidon_hash : list Field → Field.
Variable Poseidon_hashWithPrefix : string → list Field → Field.
Variable hashCredentialInCircuit : DataType → Credential Data PublicKey → CredentialHash.
Variable credentialHash : Credential Data PublicKey → Field.
Variable prefixes_issuerRecursive : string.
Variable publicInputType_toFields : PublicInput → list Field.
Variable synthesizedInput : PublicInput.
Variable program_compile :
  option (CompileOptions Cache) → Backend → result VerificationKey * Backend.
Variable program_run :
  AllInputs → Backend
  → result (FromProgram.Proof PublicInput Data PublicKey ProofBytes) * Backend.
Variable dummyProofBytes : ProofBytes.

Abbreviation State := (ProgramState Cache Backend).
Abbreviation Stored := (StoredRecursive PublicInput Data PublicKey ProofBytes).
Abbreviation create' :=
  (FromProgram.create publicInputType_toFields program_compile program_run).
Abbreviation dummy' :=
  (FromProgram.dummy (Data := Data) (PublicKey := PublicKey)
     publicInputType_toFields synthesizedInput program_compile dummyProofBytes).
Abbreviation specOf :=
  (Recursive verifyProof verifyResult Poseidon_hash Poseidon_hashWithPrefix
     hashCredentialInCircuit prefixes_issuerRecursive
     (InputProof publicInputType_toFields)).
Abbreviation generic :=
  (genericRecursive verifyProof verifyResult Poseidon_hash Poseidon_hashWithPrefix
     credentialHash prefixes_issuerRecursive).

Implicit Types (s : State) (c : Stored).

(** What obtaining the key does to the state. *)
Lemma compiledKey_Ok s vk s1 :
  compiledKey program_compile s = (Ok vk, s1) →
  isCompiled s1 = true ∧ cached_vk s1 = Some vk
  ∧ (isCompiled s = true → s1 = s)
  ∧ (isCompiled s = false →
     program_compile None (backend s) = (Ok vk, backend s1)
     ∧ compilations s1 = compilations s ++ [None]).
Proof.
  unfold compiledKey, compile. destruct (isCompiled s) eqn:Hs.
  - destruct (cached_vk s) as [vk'|] eqn:Hvk; simpl; [|done].
    intros [= <- <-]. by rewrite Hs, Hvk.
  - destruct (program_compile None (backend s)) as [[vk'|e] b]; simpl; [|done].
    intros [= <- <-]. simpl. split_and!; done.
Qed.

Lemma compiledKey_cached s vk :
  isCompiled s = true → cached_vk s = Some vk →
  compiledKey program_compile s = (Ok vk, s).
Proof. intros Hs Hvk. unfold compiledKey, compile. by rewrite Hs, Hvk. Qed.

Lemma create_Ok inputs s c s2 :
  create' inputs s = (Ok c, s2) →
  ∃ vk s1 proof,
    compiledKey program_compile s = (Ok vk, s1)
    ∧ program_run inputs (backend s1) = (Ok proof, backend s2)
    ∧ s2 = mkProgramState true (Some vk) (backend s2) (compilations s1)
    ∧ c = fromProof publicInputType_toFields proof vk.
Proof.
  unfold FromProgram.create.
  destruct (compiledKey program_compile s) as [[vk|e] s1] eqn:Hkey; [|done].
  unfold runProgram.
  destruct (program_run inputs (backend s1)) as [[proof|e] b] eqn:Hrun; [|done].
  intros [= <- <-]. exists vk, s1, proof.
  destruct (compiledKey_Ok _ _ _ Hkey) as (Hc & Hvk & _).
  simpl. by rewrite Hc, Hvk.
Qed.

(** X13.  The program is compiled once for all the credentials made from it:
    after a [create] that succeeded, no later [create] or [dummy] calls the
    backend's compilation again, whether it succeeds or fails, and every
    credential it returns carries the same verification key. *)
Theorem create_compiles_once inputs s c s1 :
  create' inputs s = (Ok c, s1) →
  (∀ inputs',
     compilations (create' inputs' s1).2 = compilations s1
     ∧ ∀ c' s2, create' inputs' s1 = (Ok c', s2) →
                vk (witness c') = vk (witness c))
  ∧ (∀ credential,
       ∃ d, dummy' credential s1 = (Ok d, s1) ∧ vk (witness d) = vk (witness c)).
Proof.
  intros (vk0 & s0 & proof & Hkey & Hrun & Hs1 & ->)%create_Ok.
  assert (Hcached : compiledKey program_compile s1 = (Ok vk0, s1)).
  { apply compiledKey_cached; by rewrite Hs1. }
  split.
  - intros inputs'. unfold FromProgram.create. rewrite Hcached. unfold runProgram.
    destruct (program_run inputs' (backend s1)) as [[proof'|e] b]; simpl.
    + split; [done|]. by intros c' s2 [= <- <-].
    + split; [done|]. done.
  - intros credential. unfold FromProgram.dummy. rewrite Hcached. by eexists.
Qed.

(** X14.  A credential returned by [create] holds the public output of the
    proof the run produced, so a check of its witness against the hash of the
    credential it stores never fails on the output: in the circuit and
    outside it, for its own spec and for the generic one, the check succeeds
    exactly when the backend, through the entry point that path uses,
    accepts the proof for the key. *)
Theorem create_credential_verifies (dataType : DataType) inputs s c s1 :
  create' inputs s = (Ok c, s1) →
  credential c = publicOutput (proof (witness c))
  ∧ verify (specOf dataType) (witness c)
      (hashCredentialInCircuit dataType (credential c))
    = (if verifyProof (proof (witness c)) (vk (witness c))
       then Ok tt else Err ProofRejected)
  ∧ verifyOutsideCircuit (specOf dataType) (witness c)
      (hashCredentialInCircuit dataType (credential c))
    = (if verifyResult (proof (witness c)) (vk (witness c))
       then Ok tt else Err (AssertionError "Invalid proof"))
  ∧ verifyOutsideCircuit generic (witness c)
      (mkCredentialHash (credentialHash (credential c)))
    = (if verifyResult (proof (witness c)) (vk (witness c))
       then Ok tt else Err (AssertionError "Invalid proof")).
Proof.
  intros (vk0 & s0 & proof & _ & _ & _ & ->)%create_Ok. simpl.
  unfold DynamicProof_verify, o1js_verify, Field_assertEquals. simpl.
  rewrite !bool_decide_eq_true_2 by done.
  split_and!; [done|by destruct (verifyProof _ _)|by destruct (verifyResult _ _)..].
Qed.

(** X15.  The issuer of a credential returned by [create] is fixed by the
    verification key and the public input of the run: its own spec and the
    generic spec compute the same issuer, and it does not depend on the
    credential's owner or data. *)
Theorem create_issuer (dataType : DataType) inputs s c s1 :
  create' inputs s = (Ok c, s1) →
  issuer (specOf dataType) (witness c) = issuer generic (witness c)
  ∧ issuer (specOf dataType) (witness c)
    = Poseidon_hashWithPrefix prefixes_issuerRecursive
        [hash (vk (witness c));
         Poseidon_hash (publicInputType_toFields (publicInput (proof (witness c))))].
Proof.
  intros (vk0 & s0 & proof & _ & _ & _ & ->)%create_Ok. by simpl.
Qed.

(** X16.  When the compilation throws, [create] throws the same exception
    without running the program, and nothing is remembered: the next
    [create] calls the compilation again. *)
Theorem create_compile_throws inputs s e b :
  isCompiled s = false →
  program_compile None (backend s) = (Err e, b) →
  create' inputs s
  = (Err e, mkProgramState false (cached_vk s) b (compilations s ++ [None]))
  ∧ ∀ inputs',
      compilations
        (create' inputs'
           (mkProgramState false (cached_vk s) b (compilations s ++ [None]))).2
      = compilations s ++ [None; None].
Proof.
  intros Hs Hcompile. split.
  - unfold FromProgram.create, compiledKey, compile. by rewrite Hs, Hcompile.
  - intros inputs'. unfold FromProgram.create, compiledKey, compile, runProgram. simpl.
    destruct (program_compile None b) as [[vk'|e'] b']; simpl.
    + destruct (program_run inputs' b') as [[proof|e''] b'']; simpl;
        unfold push; by rewrite <- app_assoc.
    + unfold push. by rewrite <- app_assoc.
Qed.

(** X17.  When the run throws, [create] throws the same exception, and the
    key obtained before stays cached. *)
Theorem create_run_throws inputs s vk s1 e b :
  compiledKey program_compile s = (Ok vk, s1) →
  program_run inputs (backend s1) = (Err e, b) →
  create' inputs s
  = (Err e, mkProgramState true (Some vk) b (compilations s1)).
Proof.
  intros Hkey Hrun. unfold FromProgram.create, runProgram. rewrite Hkey, Hrun.
  destruct (compiledKey_Ok _ _ _ Hkey) as (Hc & Hvk & _). by rewrite Hc, Hvk.
Qed.

(** X18.  [dummy] returns the credential it is given, wrapped with a dummy
    proof over the synthesised public input; it does not run the program;
    and all dummy credentials of one program and key have the same issuer,
    whatever credential they hold. *)
Theorem dummy_credential (dataType : DataType)
    (credential : Credential Data PublicKey) s d s1 :
  dummy' credential s = (Ok d, s1) →
  FromProgram.credential d = credential
  ∧ publicOutput (proof (witness d)) = credential
  ∧ compiledKey program_compile s = (Ok (vk (witness d)), s1)
  ∧ issuer (specOf dataType) (witness d)
    = Poseidon_hashWithPrefix prefixes_issuerRecursive
        [hash (vk (witness d));
         Poseidon_hash (publicInputType_toFields synthesizedInput)].
Proof.
  unfold FromProgram.dummy.
  destruct (compiledKey program_compile s) as [[vk0|e] s0] eqn:Hkey; [|done].
  by intros [= <- <-].
Qed.

(** The states reached from the initial one say they are compiled only when
    they hold a key. *)
Lemma consistent_initial (b : Backend) : consistent (initialState (Cache := Cache) b).
Proof. by intros ?. Qed.

Lemma consistent_create inputs s : consistent s → consistent (create' inputs s).2.
Proof.
  intros Hs. unfold FromProgram.create.
  destruct (compiledKey program_compile s) as [[vk0|e] s1] eqn:Hkey.
  - destruct (compiledKey_Ok _ _ _ Hkey) as (Hc & Hvk & _).
    unfold runProgram. destruct (program_run inputs (backend s1)) as [[p|?] b];
      simpl; intros _; simpl; by rewrite Hvk.
  - revert Hkey. unfold compiledKey, compile. destruct (isCompiled s) eqn:Hc.
    + destruct (Hs Hc) as [vk0 Hvk]. by rewrite Hvk.
    + destruct (program_compile None (backend s)) as [[vk0|e'] b]; simpl; [done|].
      by intros [= <- <-] H.
Qed.

(** In such a state a cached key is always there to be returned: [compile]
    never answers [undefined]. *)
Lemma compiledKey_consistent s :
  consistent s → isCompiled s = true →
  ∃ vk, compiledKey program_compile s = (Ok vk, s).
Proof.
  intros Hs Hc. destruct (Hs Hc) as [vk0 Hvk]. exists vk0.
  by apply compiledKey_cached.
Qed.

End FromProgramFacts.

(** ** The further properties at concrete inputs *)

Lemma pickCredentials_failure_witness :
  ∃ missing,
    AssertionError "Missing credentials: degree, visa"
    = AssertionError (String.append "Missing credentials: " (join ", " missing))
    ∧ missing `sublist_of` ["passport"; "degree"; "visa"]
    ∧ (length [Example.diploma] < length ["passport"; "degree"; "visa"])%nat
    ∧ length missing = length ["passport"; "degree"; "visa"] - length [Example.diploma].
Proof.
  apply (pickCredentials_failure ["passport"; "degree"; "visa"] [Example.diploma]).
  reflexivity.
Defined.

Lemma pickCredentials_dom_witness :
  dom ({[ "passport" := Example.passport; "degree" := Example.diploma ]}
         : gmap string (Selector.Tagged nat))
  = list_to_set ["degree"; "passport"].
Proof.
  apply (pickCredentials_dom ["degree"; "passport"]
           [Example.diploma; Example.licence; Example.passport]).
  - apply (bool_decide_unpack _). reflexivity.
  - reflexivity.
Defined.

Lemma pickCredentials_no_reuse_witness :
  (map_to_list ({[ "passport" := Example.passport; "degree" := Example.diploma ]}
                  : gmap string (Selector.Tagged nat))).*2
  ⊆+ [Example.diploma; Example.licence; Example.passport].
Proof.
  apply (pickCredentials_no_reuse ["degree"; "passport"]).
  reflexivity.
Defined.

Lemma pickCredentials_untagged_witness :
  ∃ used,
    Selector.pickCredentials ["degree"; "visa"] [Example.diploma; Example.permit]
    = Ok used
    ∧ ∀ j k, ["degree"; "visa"] !! j = Some k
             → used !! k = [Example.diploma; Example.permit] !! j.
Proof.
  apply (pickCredentials_untagged ["degree"; "visa"] [Example.diploma; Example.permit]).
  - intros c Hc. apply elem_of_cons in Hc as [->|Hc]; [reflexivity|].
    apply elem_of_cons in Hc as [->|Hc]; [reflexivity|]. by apply elem_of_nil in Hc.
  - apply (bool_decide_unpack _). reflexivity.
  - simpl. lia.
Defined.

Lemma pickCredentials_pool_order_witness :
  Selector.pickCredentials ["passport"; "licence"]
    [Example.passport; Example.licence; Example.diploma]
  = Selector.pickCredentials ["passport"; "licence"]
      [Example.licence; Example.passport; Example.diploma].
Proof.
  apply (pickCredentials_pool_order ["passport"; "licence"]
           [Example.licence; Example.passport; Example.diploma]
           [Example.passport; Example.licence; Example.diploma]).
  - apply (bool_decide_unpack _). reflexivity.
  - intros k Hk. apply elem_of_cons in Hk as [->|Hk]; [by eexists|].
    apply elem_of_cons in Hk as [->|Hk]; [by eexists|]. by apply elem_of_nil in Hk.
  - apply perm_swap.
Defined.

Lemma createPresentation_compile_throws_witness :
  Presentation.createPresentation (PublicKey := Z) (PrivateKey := Z)
    Example.createProgram ExampleProgram.failingCompileProgram Example.run
    Example.signCredentials Example.publicOutput 5%Z Example.request None []
    Example.world
  = (Err (BackendError "out of memory"),
     Presentation.mkWorld 1
       [Presentation.DeriveContext None; Presentation.Compile]).
Proof.
  apply (createPresentation_compile_throws Example.createProgram
           ExampleProgram.failingCompileProgram Example.run Example.signCredentials
           Example.publicOutput 5%Z Example.request None [] Example.world 0%Z).
  - reflexivity.
  - reflexivity.
Defined.

Lemma createPresentation_run_throws_witness :
  (Presentation.createPresentation (PublicKey := Z) (PrivateKey := Z)
     Example.createProgram Example.compileProgram ExampleProgram.failingRun
     Example.signCredentials Example.publicOutput 5%Z Example.request None
     [Example.diploma] Example.world).1
  = Err (BackendError "Constraint unsatisfied").
Proof.
  rewrite (createPresentation_run_throws Example.createProgram
             Example.compileProgram ExampleProgram.failingRun Example.signCredentials
             Example.publicOutput 5%Z Example.request None [Example.diploma]
             Example.world 0%Z 11%Z 1 {[ "signedData" := Example.diploma ]}
             (BackendError "Constraint unsatisfied") 2);
    reflexivity.
Defined.

Lemma createPresentation_uses_attached_program_witness :
  Presentation.createPresentation (PublicKey := Z) (PrivateKey := Z)
    Example.createProgram Example.compileProgram Example.run
    Example.signCredentials Example.publicOutput 5%Z
    ExampleProgram.compiledRequest None [Example.diploma] Example.world
  = Presentation.createPresentation (PublicKey := Z) (PrivateKey := Z)
      (λ _, "another program") Example.compileProgram Example.run
      Example.signCredentials Example.publicOutput 5%Z
      ExampleProgram.compiledRequest None [Example.diploma] Example.world.
Proof.
  apply (createPresentation_uses_attached_program Example.createProgram
           Example.compileProgram Example.run Example.signCredentials
           Example.publicOutput (λ _, "another program") 5%Z
           ExampleProgram.compiledRequest None [Example.diploma] Example.world
           "compiled program").
  reflexivity.
Defined.

Lemma create_compiles_once_witness :
  Recursive.compilations
    (ExampleProgram.create (7, 4)%Z
       (Recursive.mkProgramState true (Some Example.vkey) 2 [None])).2
  = [None].
Proof.
  apply (create_compiles_once ExampleProgram.toFields 0%Z Example.program_compile
           ExampleProgram.run false (9, 10)%Z (Recursive.initialState 0)
           (FromProgram.fromProof ExampleProgram.toFields
              (FromProgram.mkPlainProof 5%Z (Recursive.mkCredential 9%Z 20%Z) true)
              Example.vkey)
           (Recursive.mkProgramState true (Some Example.vkey) 2 [None])).
  reflexivity.
Defined.

Lemma create_credential_verifies_witness :
  FromProgram.credential
    (FromProgram.fromProof ExampleProgram.toFields
       (FromProgram.mkPlainProof 5%Z (Recursive.mkCredential 9%Z 20%Z) true)
       Example.vkey)
  = Recursive.mkCredential 9%Z 20%Z.
Proof.
  apply (create_credential_verifies Example.verifyProof Example.verifyProof
           Example.Poseidon_hash
           Example.Poseidon_hashWithPrefix Example.hashCredentialInCircuit
           Example.credentialHash "issuer-recursive" ExampleProgram.toFields
           Example.program_compile ExampleProgram.run tt (9, 10)%Z
           (Recursive.initialState 0)
           (FromProgram.fromProof ExampleProgram.toFields
              (FromProgram.mkPlainProof 5%Z (Recursive.mkCredential 9%Z 20%Z) true)
              Example.vkey)
           (Recursive.mkProgramState true (Some Example.vkey) 2 [None])).
  reflexivity.
Defined.

Lemma create_issuer_witness :
  Recursive.issuer
    (Recursive.Recursive Example.verifyProof Example.verifyProof
       Example.Poseidon_hash
       Example.Poseidon_hashWithPrefix Example.hashCredentialInCircuit
       "issuer-recursive" (FromProgram.InputProof ExampleProgram.toFields) tt)
    (FromProgram.witness
       (FromProgram.fromProof ExampleProgram.toFields
          (FromProgram.mkPlainProof 5%Z (Recursive.mkCredential 9%Z 20%Z) true)
          Example.vkey))
  = Recursive.issuer
      (Recursive.genericRecursive Example.verifyProof Example.verifyProof
         Example.Poseidon_hash
         Example.Poseidon_hashWithPrefix Example.credentialHash "issuer-recursive")
      (FromProgram.witness
         (FromProgram.fromProof ExampleProgram.toFields
            (FromProgram.mkPlainProof 5%Z (Recursive.mkCredential 9%Z 20%Z) true)
            Example.vkey)).
Proof.
  apply (create_issuer Example.verifyProof Example.verifyProof Example.Poseidon_hash
           Example.Poseidon_hashWithPrefix Example.hashCredentialInCircuit
           Example.credentialHash "issuer-recursive" ExampleProgram.toFields
           Example.program_compile ExampleProgram.run tt (9, 10)%Z
           (Recursive.initialState 0)
           (FromProgram.fromProof ExampleProgram.toFields
              (FromProgram.mkPlainProof 5%Z (Recursive.mkCredential 9%Z 20%Z) true)
              Example.vkey)
           (Recursive.mkProgramState true (Some Example.vkey) 2 [None])).
  reflexivity.
Defined.

Lemma create_compile_throws_witness :
  FromProgram.create ExampleProgram.toFields ExampleProgram.failingCompile
    ExampleProgram.run (9, 10)%Z (Recursive.initialState 0)
  = (Err (BackendError "out of memory"),
     Recursive.mkProgramState false None 1 [None]).
Proof.
  apply (create_compile_throws ExampleProgram.toFields ExampleProgram.failingCompile
           ExampleProgram.run (9, 10)%Z (Recursive.initialState 0)
           (BackendError "out of memory") 1).
  - reflexivity.
  - reflexivity.
Defined.

Lemma create_run_throws_witness :
  FromProgram.create (PublicInput := Z) (Data := Z) (PublicKey := Z)
    (ProofBytes := bool) ExampleProgram.toFields Example.program_compile
    (λ (_ : Z * Z) calls, (Err (BackendError "Constraint unsatisfied"), S calls))
    (9, 10)%Z (Recursive.initialState 0)
  = (Err (BackendError "Constraint unsatisfied"),
     Recursive.mkProgramState true (Some Example.vkey) 2 [None]).
Proof.
  apply (create_run_throws ExampleProgram.toFields Example.program_compile
           (λ (_ : Z * Z) calls, (Err (BackendError "Constraint unsatisfied"), S calls))
           (9, 10)%Z (Recursive.initialState 0) Example.vkey
           (Recursive.mkProgramState true (Some Example.vkey) 1 [None])
           (BackendError "Constraint unsatisfied") 2).
  - reflexivity.
  - reflexivity.
Defined.

Lemma dummy_credential_witness :
  FromProgram.credential
    {| FromProgram.version := "v0";
       FromProgram.metadata := tt;
       FromProgram.credential := Recursive.mkCredential 9%Z 20%Z;
       FromProgram.witness :=
         Recursive.mkWitness "recursive" Example.vkey
           (FromProgram.InputProof_dummy ExampleProgram.toFields false 0%Z
              (Recursive.mkCredential 9%Z 20%Z)) |}
  = Recursive.mkCredential 9%Z 20%Z.
Proof.
  apply (dummy_credential Example.verifyProof Example.verifyProof Example.Poseidon_hash
           Example.Poseidon_hashWithPrefix Example.hashCredentialInCircuit
           "issuer-recursive" ExampleProgram.toFields 0%Z Example.program_compile
           false tt (Recursive.mkCredential 9%Z 20%Z) (Recursive.initialState 0)
           _ (Recursive.mkProgramState true (Some Example.vkey) 1 [None])).
  reflexivity.
Defined.
